(** * Skye user management front end: sortable listing and session lifecycle

    A shallow embedding of the client-side logic of the React front end:

    - the [UserTable] component (sort state, comparator, sorted view, sort
      icons, header wiring);
    - the Axios client of [services/api.js] (request and response
      interceptors, the four API calls);
    - the page controllers [LoginPage], [RegisterPage] and [UsersPage]
      (what they write to [localStorage] and where they navigate);
    - the forms [LoginForm] and [RegisterForm] (validation and submission),
      the theme of [ThemeContext] and the countdown of [UserCreatedPage].

    The development has three parts: the definitions, translated from the
    JavaScript sources, the properties of the sort state, the sorted view
    and the session, and further properties of the components. *)

From Stdlib Require Import ZArith String Ascii List Permutation Sorted Lia.
From Stdlib Require QArith.
From stdpp Require Import base option list gmap strings pretty.

Local Open Scope string_scope.
Local Open Scope Z_scope.

(* ===================================================================== *)
(** * Part I: definitions                                                 *)
(* ===================================================================== *)

(** ** The fragment of JavaScript the components rely on *)

Module Js.

(** The only exception the sorted view can raise. *)
Inductive Exception := TypeError.

(** Completion of an evaluation: a value, or a thrown exception. *)
Inductive Completion (A : Type) : Type :=
| Normal (a : A)
| Throw (e : Exception).
Arguments Normal {A} a.
Arguments Throw {A} e.

#[export] Instance Completion_ret : MRet Completion := fun _ a => Normal a.
#[export] Instance Completion_bind : MBind Completion := fun _ _ k m =>
  match m with
  | Normal a => k a
  | Throw e => Throw e
  end.
#[export] Instance Completion_fmap : FMap Completion := fun _ _ f m =>
  match m with
  | Normal a => Normal (f a)
  | Throw e => Throw e
  end.

(** Numbers as far as [<] can tell them apart: every finite double is a
    rational, and the two zeros compare equal. *)
Inductive Number :=
| NaN
| NegInfinity
| Finite (q : QArith_base.Q)
| PosInfinity.

(** [x < y] on numbers; a comparison with [NaN] is not true. *)
Definition Number_lt (x y : Number) : bool :=
  match x, y with
  | NaN, _ | _, NaN => false
  | _, NegInfinity => false
  | NegInfinity, _ => true
  | PosInfinity, _ => false
  | Finite _, PosInfinity => true
  | Finite p, Finite q => negb (QArith_base.Qle_bool q p)
  end.

(** The values a field of a user record can hold once the listing is
    fetched (a JSON string, JSON [null], or nothing at all), and the
    [Date] objects the comparator wraps them in.  A [Date] carries its
    time value in milliseconds, [None] for an invalid date. *)
Inductive Value :=
| Undefined
| Null
| Str (s : string)
| DateObj (tv : option Z).

(** What the engine supplies and the standard does not spell out as a
    function on code units: date parsing, and the numeric reading of a
    string. *)
Class Host := {
  Date_parse : string -> option Z;
  StringToNumber : string -> Number
}.

(** [typeof v === 'string'] *)
Definition is_string (v : Value) : bool :=
  match v with Str _ => true | _ => false end.

(** [new Date(v)]: a string is parsed, [null] is the number 0,
    [undefined] is [NaN]. *)
Definition newDate `{Host} (v : Value) : Value :=
  match v with
  | Str s => DateObj (Date_parse s)
  | Null => DateObj (Some 0)
  | Undefined => DateObj None
  | DateObj tv => DateObj tv
  end.

Definition ToNumber `{Host} (v : Value) : Number :=
  match v with
  | Undefined => NaN
  | Null => Finite (QArith_base.inject_Z 0)
  | Str s => StringToNumber s
  | DateObj (Some t) => Finite (QArith_base.inject_Z t)
  | DateObj None => NaN
  end.

(** [x < y]: two strings are compared by code units, anything else as
    numbers.  The undefined outcome (a [NaN] operand) counts as false in
    the [if] that consumes it. *)
Definition lessThan `{Host} (x y : Value) : bool :=
  match x, y with
  | Str a, Str b => String.ltb a b
  | _, _ => Number_lt (ToNumber x) (ToNumber y)
  end.

(** [String.prototype.toLowerCase] on strings of code units below 256:
    [A]-[Z] and the capital letters of the Latin-1 supplement
    (U+00C0-U+00DE without the multiplication sign U+00D7) move up by 32. *)
Definition lowerChar (c : ascii) : ascii :=
  let n := N_of_ascii c in
  if ((65 <=? n) && (n <=? 90))%N then ascii_of_N (n + 32)
  else if ((192 <=? n) && (n <=? 222) && negb (n =? 215))%N
       then ascii_of_N (n + 32)
  else c.

Fixpoint toLowerCase (s : string) : string :=
  match s with
  | EmptyString => EmptyString
  | String c s' => String (lowerChar c) (toLowerCase s')
  end.

(** [v.toLowerCase()]: a method of strings only. *)
Definition call_toLowerCase (v : Value) : Completion Value :=
  match v with
  | Str s => Normal (Str (toLowerCase s))
  | _ => Throw TypeError
  end.

(** [Array.prototype.sort(comparefn)] on a fresh copy of the array.

    ECMAScript leaves the algorithm to the engine and fixes the outcome:
    the sort is stable, an exception of [comparefn] aborts it, and for a
    consistent comparator the result is in ascending order of
    [comparefn].  The model is the stable insertion sort; [comparefn x y]
    is asked with [x] the element that came first in the input, and a
    result above zero moves [x] behind [y].

    Which pairs are compared, and which of the two elements is passed
    first, is the engine's choice (V8 passes the later element first).
    The model is therefore exact for a consistent comparator that does not
    throw, where every conforming sort gives the same list; for a
    comparator that throws or is inconsistent it gives one of the outcomes
    ECMAScript allows, and an engine may throw where the model does not,
    or the other way round. *)
Section ArraySort.
Context {A : Type} (comparefn : A -> A -> Completion Z).

Fixpoint insert_sorted (x : A) (l : list A) : Completion (list A) :=
    match l with
    | [] => Normal [x]
    | y :: l' =>
        c ← comparefn x y;
        if 0 <? c then (r ← insert_sorted x l'; Normal (y :: r))
        else Normal (x :: y :: l')
    end.

Fixpoint sort (l : list A) : Completion (list A) :=
    match l with
    | [] => Normal []
    | x :: l' => s ← sort l'; insert_sorted x s
    end.
End ArraySort.

End Js.

Import Js.

(** ** [UserTable]: sort state, comparator and sorted view *)

(** The columns a record can be sorted by, [@param field] of [handleSort]. *)
Inductive Field := Name | Email | CreatedAt.

(** ['asc' | 'desc'] *)
Inductive Direction := asc | desc.

#[export] Instance Field_eq_dec : EqDecision Field.
Proof. solve_decision. Defined.
#[export] Instance Direction_eq_dec : EqDecision Direction.
Proof. solve_decision. Defined.

(** One row of the listing: [{ id, name, email, created_at }]. *)
Record User := {
  id : Z;
  name : Value;
  email : Value;
  created_at : Value
}.

(** [a[sortField]] *)
Definition prop (u : User) (f : Field) : Value :=
  match f with
  | Name => name u
  | Email => email u
  | CreatedAt => created_at u
  end.

(** The two [useState] cells of the component. *)
Record SortState := {
  sortField : Field;
  sortDirection : Direction
}.

(** [useState('name')], [useState('asc')] *)
Definition initialSortState : SortState :=
  {| sortField := Name; sortDirection := asc |}.

(** The comparator handed to [sort] by the [sortedUsers] memo. *)
Definition compareUsers `{Host} (st : SortState) (a b : User) : Completion Z :=
  let aValue := prop a (sortField st) in
  let bValue := prop b (sortField st) in
  let '(aValue, bValue) :=
    if decide (sortField st = CreatedAt)
    then (newDate aValue, newDate bValue)
    else (aValue, bValue) in
  '(aValue, bValue) ←
    (if is_string aValue
     then al ← call_toLowerCase aValue;
          bl ← call_toLowerCase bValue;
          Normal (al, bl)
     else Normal (aValue, bValue));
  if lessThan aValue bValue
  then Normal (if decide (sortDirection st = asc) then -1 else 1)
  else if lessThan bValue aValue
  then Normal (if decide (sortDirection st = asc) then 1 else -1)
  else Normal 0.

(** The [sortedUsers] memo: the empty listing is answered at once, any other
    is copied and sorted. *)
Definition sortedUsers `{Host} (users : list User) (st : SortState)
  : Completion (list User) :=
  match users with
  | [] => Normal []
  | _ => sort (compareUsers st) users
  end.

(** [handleSort(field)] *)
Definition handleSort (field : Field) (st : SortState) : SortState :=
  if decide (sortField st = field)
  then {| sortField := sortField st;
          sortDirection := if decide (sortDirection st = asc) then desc else asc |}
  else {| sortField := field; sortDirection := asc |}.

(** What [getSortIcon] renders: the muted chevron of a column that is not
    the active one, or the highlighted chevron pointing up or down. *)
Inductive SortIcon := NeutralChevron | ActiveChevronUp | ActiveChevronDown.

Definition getSortIcon (field : Field) (st : SortState) : SortIcon :=
  if decide (sortField st ≠ field) then NeutralChevron
  else if decide (sortDirection st = asc) then ActiveChevronUp
  else ActiveChevronDown.

(** The three [<th>] cells of the table head and their [onClick]: the name
    and creation-date headers call [handleSort], the e-mail header has no
    handler. *)
Inductive Header := NameHeader | EmailHeader | CreatedAtHeader.

Definition onClick (h : Header) : option (SortState -> SortState) :=
  match h with
  | NameHeader => Some (handleSort Name)
  | EmailHeader => None
  | CreatedAtHeader => Some (handleSort CreatedAt)
  end.

Definition click (h : Header) (st : SortState) : SortState :=
  match onClick h with
  | Some handler => handler st
  | None => st
  end.

(** One step of the component: the user clicks a header. *)
Inductive step : SortState -> SortState -> Prop :=
| step_click (h : Header) (st : SortState) : step st (click h st).

(** The states the component can be in after any number of clicks. *)
Inductive reachable : SortState -> Prop :=
| reachable_initial : reachable initialSortState
| reachable_step st st' : reachable st -> step st st' -> reachable st'.

(** ** The browser: [localStorage] and the current route *)

(** Of the browser the session code touches two things: the key/value
    store, and the route shown ([navigate(path)] and
    [window.location.href = path] both end there).  The [useState] cells of
    the pages ([loading], [error], [users]) and the console are written by
    the handlers below but never read back by the session logic; their
    setters are left out. *)
Record World := {
  localStorage : gmap string string;
  location : string
}.

Definition getItem (key : string) (w : World) : option string :=
  localStorage w !! key.

Definition setItem (key value : string) (w : World) : World :=
  {| localStorage := <[key := value]> (localStorage w);
     location := location w |}.

Definition removeItem (key : string) (w : World) : World :=
  {| localStorage := delete key (localStorage w);
     location := location w |}.

Definition navigate (path : string) (w : World) : World :=
  {| localStorage := localStorage w; location := path |}.

(** ** [services/api.js]: the Axios instance and its interceptors *)

Record Request := {
  url : string;
  headers : gmap string string;
  params : list (string * string)
}.

(** [error.response], as far as the handlers look into it. *)
Record ErrorResponse := {
  status : Z;
  data_message : option string
}.

(** The error a request is rejected with: [error.response] is absent when
    the server never answered. *)
Record AxiosError := {
  response : option ErrorResponse;
  code : option string
}.

(** How a request ends: a 2xx answer with its body, or a rejection. *)
Inductive Outcome (D : Type) : Type :=
| Fulfilled (data : D)
| Rejected (error : AxiosError).
Arguments Fulfilled {D} data.
Arguments Rejected {D} error.

(** The network and the server behind it, per endpoint. *)
Definition Server (D : Type) : Type := Request -> Outcome D.

(** [error.response?.status] *)
Definition response_status (e : AxiosError) : option Z :=
  status <$> response e.

(** The headers of [axios.create]. *)
Definition defaultHeaders : gmap string string :=
  <["Accept" := "application/json"]>
    (<["Content-Type" := "application/json"]> ∅).

(** A string in a condition: [null] and the empty string are false. *)
Definition truthy (v : option string) : bool :=
  match v with
  | Some EmptyString | None => false
  | Some _ => true
  end.

(** [api.interceptors.request]: the stored token, if any, travels as a
    bearer token. *)
Definition requestInterceptor (config : Request) (w : World) : Request :=
  let token := getItem "authToken" w in
  if truthy token
  then {| url := url config;
          headers := <["Authorization" := "Bearer " +:+ default "" token]>
                       (headers config);
          params := params config |}
  else config.

(** [api.interceptors.response]: answers pass; on a rejection with status
    401 the store is cleaned and the browser sent to the login page; the
    rejection is handed on in both cases. *)
Definition responseInterceptor {D} (r : Outcome D) (w : World)
  : World * Outcome D :=
  match r with
  | Fulfilled d => (w, Fulfilled d)
  | Rejected error =>
      let w' :=
        if decide (response_status error = Some 401)
        then navigate "/login"
               (removeItem "user" (removeItem "authToken" w))
        else w in
      (w', Rejected error)
  end.

(** The request config of a call on the instance [api], as the request
    interceptor returns it: the base URL and the headers given to
    [axios.create], with the bearer token added.  The model stops at this
    config: what axios does with it afterwards (it sends no [Content-Type]
    with a request that has no body, as [GET /users] and
    [POST /auth/logout]) is the library's and not the repository's. *)
Definition sentRequest (path : string) (args : list (string * string))
    (w : World) : Request :=
  requestInterceptor
    {| url := "http://localhost/api" +:+ path;
       headers := defaultHeaders;
       params := args |} w.

(** A request through the instance [api]: request interceptor, network,
    response interceptor. *)
Definition api_request {D} (server : Server D) (path : string)
    (args : list (string * string)) (w : World) : World * Outcome D :=
  responseInterceptor (server (sentRequest path args w)) w.

(** The owner of a session, as the server reports it. *)
Record Identity := {
  user_id : Z;
  user_name : string;
  user_email : string
}.

(** The bodies of the answers: [response.data]. *)
Inductive AuthData :=
| AuthSuccess (user : Identity) (token : string)
| AuthFailure (message : option string).

Inductive UsersData :=
| UsersSuccess (users : list User)
| UsersFailure (message : option string).

Inductive LogoutData := LogoutDone.

Definition authAPI_login (server : Server AuthData) (email password : string)
  : World -> World * Outcome AuthData :=
  api_request server "/auth/login"
    [("email", email); ("password", password)].

Definition authAPI_register (server : Server AuthData)
    (name email password password_confirmation : string)
  : World -> World * Outcome AuthData :=
  api_request server "/auth/register"
    [("name", name); ("email", email); ("password", password);
     ("password_confirmation", password_confirmation)].

Definition authAPI_logout (server : Server LogoutData)
  : World -> World * Outcome LogoutData :=
  api_request server "/auth/logout" [].

Definition usersAPI_getUsers (server : Server UsersData)
    (sortBy sortDirection : string) : World -> World * Outcome UsersData :=
  api_request server "/users"
    [("sort_by", sortBy); ("sort_direction", sortDirection)].

(** ** [JSON.stringify] of the owner record *)

Definition hexDigit (n : N) : ascii :=
  default "0"%char (list_ascii_of_string "0123456789abcdef" !! N.to_nat n).

(** [QuoteJSONString], one code unit: the quote and the backslash get a
    backslash, control characters their short or [\u00XX] escape. *)
Definition quoteChar (c : ascii) : string :=
  let n := N_of_ascii c in
  if (n =? 34)%N then String "\" (String c EmptyString)
  else if (n =? 92)%N then "\\"
  else if (n =? 8)%N then "\b"
  else if (n =? 9)%N then "\t"
  else if (n =? 10)%N then "\n"
  else if (n =? 12)%N then "\f"
  else if (n =? 13)%N then "\r"
  else if (n <? 32)%N
       then "\u00" +:+ String (hexDigit (n / 16)) (String (hexDigit (n mod 16)) EmptyString)
  else String c EmptyString.

Fixpoint quoteChars (s : string) : string :=
  match s with
  | EmptyString => EmptyString
  | String c s' => quoteChar c +:+ quoteChars s'
  end.

Definition dquote : string := String (ascii_of_N 34) EmptyString.

Definition quoteJSONString (s : string) : string :=
  dquote +:+ quoteChars s +:+ dquote.

(** The keys come out in the order the server wrote them: id, name, email;
    the id is an integer, printed in decimal. *)
Definition JSON_stringify (u : Identity) : string :=
  "{" +:+ quoteJSONString "id" +:+ ":" +:+ pretty (user_id u) +:+ ","
      +:+ quoteJSONString "name" +:+ ":" +:+ quoteJSONString (user_name u) +:+ ","
      +:+ quoteJSONString "email" +:+ ":" +:+ quoteJSONString (user_email u)
      +:+ "}".

(** ** The session in [localStorage] *)

(** A session is a token and its owner. *)
Record Credential := {
  token : string;
  owner : Identity
}.

(** Opening a session, as [handleLogin] does on success
    (LoginPage.jsx, the two [setItem] calls). *)
Definition establish (c : Credential) (w : World) : World :=
  setItem "user" (JSON_stringify (owner c))
    (setItem "authToken" (token c) w).

(** Closing it, as [handleLogout], [loadUsers] and the response interceptor
    do (the two [removeItem] calls). *)
Definition invalidate (w : World) : World :=
  removeItem "user" (removeItem "authToken" w).

(** ** The page controllers *)

(** [LoginPage.handleLogin(credentials)] *)
Definition handleLogin (server : Server AuthData) (email password : string)
    (w : World) : World :=
  let '(w, r) := authAPI_login server email password w in
  match r with
  | Fulfilled (AuthSuccess user token) =>
      let w := setItem "authToken" token w in
      let w := setItem "user" (JSON_stringify user) w in
      navigate "/users" w
  | Fulfilled (AuthFailure _) => w
  | Rejected _ => w
  end.

(** [RegisterPage.handleRegister(userData)]: the token of the answer is not
    stored; a failure is thrown on to the form. *)
Definition handleRegister (server : Server AuthData)
    (name email password confirmPassword : string) (w : World) : World :=
  let '(w, r) :=
    authAPI_register server name email password confirmPassword w in
  match r with
  | Fulfilled (AuthSuccess _ _) => navigate "/user-created" w
  | Fulfilled (AuthFailure _) => w
  | Rejected _ => w
  end.

(** [UsersPage.loadUsers()] *)
Definition loadUsers (server : Server UsersData) (w : World) : World :=
  let '(w, r) := usersAPI_getUsers server "name" "asc" w in
  match r with
  | Fulfilled _ => w
  | Rejected error =>
      if decide (response_status error = Some 401)
      then
        let w := removeItem "authToken" w in
        let w := removeItem "user" w in
        navigate "/login" w
      else w
  end.

(** The effect of [UsersPage] on mount: no token, no listing. *)
Definition UsersPage_mount (server : Server UsersData) (w : World) : World :=
  if truthy (getItem "authToken" w) then loadUsers server w
  else navigate "/login" w.

(** [UsersPage.handleLogout()]: [try] the remote logout, [catch] and log
    its failure, [finally] clean up and leave. *)
Definition handleLogout (server : Server LogoutData) (w : World) : World :=
  let '(w, r) := authAPI_logout server w in
  let w :=
    match r with
    | Fulfilled _ => w
    | Rejected _ => w
    end in
  let w := removeItem "authToken" w in
  let w := removeItem "user" w in
  navigate "/login" w.

(** ** Notions the properties are stated with *)

(** What the comparator orders a record by: the folded text of a string
    column, or the instant of the creation date.  A record has no key when
    the column holds no string (and, for the date, is not [null] either) or
    when the date does not parse. *)
Inductive Key :=
| TextKey (s : string)
| InstantKey (t : Z).

#[export] Instance Key_eq_dec : EqDecision Key.
Proof. solve_decision. Defined.

Definition sortKey `{Host} (f : Field) (u : User) : option Key :=
  match f, prop u f with
  | CreatedAt, Str s => InstantKey <$> Date_parse s
  | CreatedAt, Null => Some (InstantKey 0)
  | (Name | Email), Str s => Some (TextKey (toLowerCase s))
  | _, _ => None
  end.

(** Code-unit order on texts, numeric order on instants. *)
Definition key_compare (a b : Key) : comparison :=
  match a, b with
  | TextKey s, TextKey t => String.compare s t
  | InstantKey s, InstantKey t => Z.compare s t
  | TextKey _, InstantKey _ => Lt
  | InstantKey _, TextKey _ => Gt
  end.

(** The same order with the records that have no key in front of it. *)
Definition okey_compare (a b : option Key) : comparison :=
  match a, b with
  | None, None => Eq
  | None, Some _ => Lt
  | Some _, None => Gt
  | Some a, Some b => key_compare a b
  end.

(** The number the comparator answers an order with. *)
Definition signed (d : Direction) (c : comparison) : Z :=
  match d, c with
  | _, Eq => 0
  | asc, Lt | desc, Gt => -1
  | asc, Gt | desc, Lt => 1
  end.

(** The comparator as a total function of the keys. *)
Definition keyCompare `{Host} (st : SortState) (a b : User) : Z :=
  signed (sortDirection st)
    (okey_compare (sortKey (sortField st) a) (sortKey (sortField st) b)).

(** Every record of the listing has a key in the active column. *)
Definition WellFormed `{Host} (f : Field) (users : list User) : Prop :=
  Forall (fun u => is_Some (sortKey f u)) users.

(** [a] may stand before [b] in the view. *)
Definition inOrder `{Host} (st : SortState) (a b : User) : Prop :=
  keyCompare st a b <= 0.

(** [a] and [b] tie. *)
Definition sameKey `{Host} (f : Field) (a b : User) : Prop :=
  sortKey f a = sortKey f b.

#[export] Instance sameKey_dec `{Host} f a b : Decision (sameKey f a b).
Proof. unfold sameKey. apply _. Defined.

(** A comparator in the sense of ECMAScript's "consistent comparator", on
    the sign of its answers. *)
Record Consistent {A : Type} (cmp : A -> A -> Z) : Prop := {
  consistent_refl : forall x, cmp x x = 0;
  consistent_antisym : forall x y, 0 < cmp x y <-> cmp y x < 0;
  consistent_trans : forall x y z, cmp x y <= 0 -> cmp y z <= 0 -> cmp x z <= 0
}.

(** What ECMAScript asks of the outcome of [sort] for such a comparator:
    the same elements, in ascending order, ties in their input order. *)
Record SortContract {A : Type} (cmp : A -> A -> Z) (input output : list A)
  : Prop := {
  contract_perm : Permutation input output;
  contract_sorted : StronglySorted (fun x y => cmp x y <= 0) output;
  contract_stable : forall z,
    filter (fun y => cmp z y = 0) output = filter (fun y => cmp z y = 0) input
}.

(** Ascending for descending and back. *)
Definition opposite (d : Direction) : Direction :=
  match d with
  | asc => desc
  | desc => asc
  end.

(** The letters that have two cases among the code units below 256, capital
    and small in the same order: [A]-[Z] with [a]-[z], and the letters of
    the Latin-1 supplement, U+00C0-U+00D6 with U+00E0-U+00F6 and
    U+00D8-U+00DE with U+00F8-U+00FE. *)
Definition codeUnits (first : N) (count : nat) : list ascii :=
  (fun i => ascii_of_N (first + N.of_nat i)) <$> seq 0 count.

Definition capitals : list ascii :=
  (list_ascii_of_string "ABCDEFGHIJKLMNOPQRSTUVWXYZ"
   ++ codeUnits 192 23 ++ codeUnits 216 7)%list.

Definition smalls : list ascii :=
  (list_ascii_of_string "abcdefghijklmnopqrstuvwxyz"
   ++ codeUnits 224 23 ++ codeUnits 248 7)%list.

Definition letterCases : list (ascii * ascii) := zip capitals smalls.

(** Two code units are the same letter: they are equal, or one is the
    capital and the other the small form of one letter. *)
Inductive sameLetter : ascii -> ascii -> Prop :=
| sameLetter_same c : sameLetter c c
| sameLetter_capital_small C s : (C, s) ∈ letterCases -> sameLetter C s
| sameLetter_small_capital C s : (C, s) ∈ letterCases -> sameLetter s C.

(** Two texts are equal but for the case of their letters. *)
Inductive equalIgnoringCase : string -> string -> Prop :=
| equalIgnoringCase_empty : equalIgnoringCase "" ""
| equalIgnoringCase_letter c d s t :
    sameLetter c d -> equalIgnoringCase s t ->
    equalIgnoringCase (String c s) (String d t).

(** No session in the store, and the login page on screen. *)
Definition loggedOut (w : World) : Prop :=
  getItem "authToken" w = None /\ getItem "user" w = None
  /\ location w = "/login".

(** The request was rejected with the status 401. *)
Definition unauthorized {D} (r : Outcome D) : Prop :=
  exists error, r = Rejected error /\ response_status error = Some 401.

(** A server that turns every request down with 401. *)
Definition answers401 {D} (server : Server D) : Prop :=
  forall request, unauthorized (server request).

(** The insertion sort of [Js.sort] for a comparator that cannot throw. *)
Section PureSort.
Context {A : Type} (cmp : A -> A -> Z).

Fixpoint insert_pure (x : A) (l : list A) : list A :=
  match l with
  | [] => [x]
  | y :: l' => if 0 <? cmp x y then y :: insert_pure x l' else x :: y :: l'
  end.

Fixpoint sort_pure (l : list A) : list A :=
  match l with
  | [] => []
  | x :: l' => insert_pure x (sort_pure l')
  end.
End PureSort.

(** ** Fixtures *)

(** A record with nothing but an id and a name, as in the scenarios. *)
Definition named (i : Z) (n : Value) : User :=
  {| id := i; name := n; email := Undefined; created_at := Undefined |}.

(** A record with nothing but an id and a creation date. *)
Definition dated (i : Z) (c : Value) : User :=
  {| id := i; name := Undefined; email := Undefined; created_at := c |}.

(** Scenario A: three names in mixed case. *)
Definition scenarioA : list User :=
  [named 1 (Str "beta"); named 2 (Str "Alpha"); named 3 (Str "gamma")].

(** Two records whose names fold to the same text. *)
Definition twins : list User :=
  [named 1 (Str "ana"); named 2 (Str "Ana")].

(** Three names that the code units order as Bob, Zoe, ana and the
    letters as ana, Bob, Zoe. *)
Definition mixedCase : list User :=
  [named 1 (Str "Zoe"); named 2 (Str "ana"); named 3 (Str "Bob")].

(** A record from before 1970 and a record without a date. *)
Definition undated : list User :=
  [dated 1 (Str "1969-12-31"); dated 2 Null].

(** A listing with every column filled in. *)
Definition listing : list User :=
  [ {| id := 1; name := Str "Juan Perez";
       email := Str "juan.perez@ejemplo.com";
       created_at := Str "2024-01-15" |};
    {| id := 2; name := Str "ana martinez";
       email := Str "Ana.Martinez@ejemplo.com";
       created_at := Str "2024-03-25" |};
    {| id := 3; name := Str "Carlos Lopez";
       email := Str "carlos.lopez@ejemplo.com";
       created_at := Str "2024-01-15" |} ].

(** The same listing by creation date, oldest first. *)
Definition listingByDate : list User :=
  [ {| id := 1; name := Str "Juan Perez";
       email := Str "juan.perez@ejemplo.com";
       created_at := Str "2024-01-15" |};
    {| id := 3; name := Str "Carlos Lopez";
       email := Str "carlos.lopez@ejemplo.com";
       created_at := Str "2024-01-15" |};
    {| id := 2; name := Str "ana martinez";
       email := Str "Ana.Martinez@ejemplo.com";
       created_at := Str "2024-03-25" |} ].

(** The server's answer to an expired token. *)
Definition expired : AxiosError :=
  {| response := Some {| status := 401; data_message := Some "Unauthenticated." |};
     code := Some "ERR_BAD_REQUEST" |}.

(** A browser with a session, looking at the listing. *)
Definition signedIn : World :=
  {| localStorage :=
       <["user" := JSON_stringify
                     {| user_id := 1; user_name := "Administrador";
                        user_email := "admin@test.com" |}]>
         (<["authToken" := "1|abcdef"]> ∅);
     location := "/users" |}.

(** A browser without one, on the login page. *)
Definition signedOut : World :=
  {| localStorage := ∅; location := "/login" |}.

(** ** A host for the worked examples *)

(** The examples need an engine to run on.  This one parses the date-only
    form [YYYY-MM-DD] of the ECMAScript date-time format (midnight UTC) and
    reads a string of decimal digits as that number; it knows no other date
    format and no other numeric literal, and the examples use none. *)
Definition digit (c : ascii) : option Z :=
  let n := Z.of_N (N_of_ascii c) in
  if (48 <=? n) && (n <=? 57) then Some (n - 48) else None.

Fixpoint digits (s : string) (acc : Z) : option Z :=
  match s with
  | EmptyString => Some acc
  | String c s' => d ← digit c; digits s' (10 * acc + d)
  end.

Definition isLeapYear (y : Z) : bool :=
  ((y mod 4 =? 0) && negb (y mod 100 =? 0)) || (y mod 400 =? 0).

Definition daysInMonth (y m : Z) : Z :=
  if m =? 2 then (if isLeapYear y then 29 else 28)
  else if (m =? 4) || (m =? 6) || (m =? 9) || (m =? 11) then 30
  else 31.

(** Days between 1970-01-01 and the given day of the Gregorian calendar. *)
Definition daysFromCivil (y m d : Z) : Z :=
  let y' := if m <=? 2 then y - 1 else y in
  let era := y' / 400 in
  let yoe := y' - era * 400 in
  let mp := if 2 <? m then m - 3 else m + 9 in
  let doy := (153 * mp + 2) / 5 + d - 1 in
  let doe := yoe * 365 + yoe / 4 - yoe / 100 + doy in
  era * 146097 + doe - 719468.

Definition msPerDay : Z := 86400000.

Definition parseIsoDate (s : string) : option Z :=
  if negb (Nat.eqb (String.length s) 10) then None
  else if negb (String.eqb (substring 4 1 s) "-") then None
  else if negb (String.eqb (substring 7 1 s) "-") then None
  else
    y ← digits (substring 0 4 s) 0;
    m ← digits (substring 5 2 s) 0;
    d ← digits (substring 8 2 s) 0;
    if (1 <=? m) && (m <=? 12) && (1 <=? d) && (d <=? daysInMonth y m)
    then Some (daysFromCivil y m d * msPerDay)
    else None.

Definition readDecimal (s : string) : Number :=
  match digits s 0 with
  | Some n => Finite (QArith_base.inject_Z n)
  | None => NaN
  end.

Definition isoHost : Host :=
  {| Date_parse := parseIsoDate; StringToNumber := readDecimal |}.

(** ** Reading the session back *)

(** The repository writes the key [user] and never reads it: there is no
    [JSON.parse] in it.  What follows is [JSON.parse] on the texts that
    [JSON.stringify] writes for an owner (the three keys in the order id,
    name, e-mail, without white space; an integer id; code units below
    256), so that what the store holds can be compared with what was
    stored.  Any other text is outside the model and reads as nothing. *)












(** ** [UserTable]: what it renders *)

(** The three things the component returns: the spinner while loading, the
    panel with the counter and the "no users" message, or the panel with
    the counter and the table (the two sort icons of its head, and one row
    per record of the sorted view, showing name, e-mail and creation
    date). *)
Inductive View :=
| SpinnerView
| NoUsersView (count : nat)
| TableView (count : nat) (nameIcon createdAtIcon : SortIcon)
    (rows : list User).

(** The component function: the [sortedUsers] memo is evaluated first, the
    early return for [loading] comes after the hooks. *)
Definition UserTable `{Host} (users : list User) (loading : bool)
    (st : SortState) : Completion View :=
  rows ← sortedUsers users st;
  if loading then Normal SpinnerView
  else match users with
       | [] => Normal (NoUsersView (length users))
       | _ => Normal (TableView (length users)
                        (getSortIcon Name st) (getSortIcon CreatedAt st) rows)
       end.

(** ** [UsersPage]: the listing it holds *)

(** [useState([])], [useState(true)] *)
Record UsersPageState := {
  users : list User;
  loading : bool
}.

Definition initialUsersPage : UsersPageState :=
  {| users := []; loading := true |}.

(** [loadUsers()] with the two state cells it writes: [setLoading(true)],
    the request, [setUsers], and [setLoading(false)] in [finally]. *)
Definition loadUsers_state (server : Server UsersData) (w : World)
  : World * UsersPageState :=
  let '(w, r) := usersAPI_getUsers server "name" "asc" w in
  match r with
  | Fulfilled (UsersSuccess users) =>
      (w, {| users := users; loading := false |})
  | Fulfilled (UsersFailure _) =>
      (w, {| users := []; loading := false |})
  | Rejected error =>
      let w :=
        if decide (response_status error = Some 401)
        then
          let w := removeItem "authToken" w in
          let w := removeItem "user" w in
          navigate "/login" w
        else w in
      (w, {| users := []; loading := false |})
  end.

(** The effect on mount, with the state it leaves. *)
Definition UsersPage_mount_state (server : Server UsersData) (w : World)
  : World * UsersPageState :=
  if truthy (getItem "authToken" w) then loadUsers_state server w
  else (navigate "/login" w, initialUsersPage).

(** What the page shows: [<UserTable users loading />], its sort state as
    the clicks have left it. *)
Definition UsersPage_view `{Host} (page : UsersPageState) (st : SortState)
  : Completion View :=
  UserTable (users page) (loading page) st.

(** ** [ThemeContext]: the theme and its key in the store *)

Definition themeValue (isDark : bool) : string :=
  if isDark then "dark" else "light".

(** The first effect of [ThemeProvider]: the saved theme if there is one,
    the preference of the system otherwise. *)
Definition loadTheme (prefersDark : bool) (w : World) : bool :=
  let savedTheme := getItem "catware-theme" w in
  if truthy savedTheme then bool_decide (savedTheme = Some "dark")
  else prefersDark.

(** The second effect, as far as the store goes (it also copies the value
    to the [data-theme] attribute of the document). *)
Definition persistTheme (isDark : bool) (w : World) : World :=
  setItem "catware-theme" (themeValue isDark) w.

(** [toggleTheme]: [setIsDark(prev => !prev)] *)
Definition toggleTheme (isDark : bool) : bool := negb isDark.

(** ** [UserCreatedPage]: the countdown *)

(** The counter shown, and whether the interval is still set. *)
Record Countdown := {
  countdown : Z;
  ticking : bool
}.

(** [useState(10)], and the interval set by the effect. *)
Definition initialCountdown : Countdown :=
  {| countdown := 10; ticking := true |}.

(** One firing of the interval: at 1 or below the interval is cleared, the
    browser sent to the login page and the counter set to 0; otherwise the
    counter goes down by one.  A cleared interval does not fire. *)
Definition tick (s : Countdown * World) : Countdown * World :=
  let '(c, w) := s in
  if ticking c
  then if countdown c <=? 1
       then ({| countdown := 0; ticking := false |}, navigate "/login" w)
       else ({| countdown := countdown c - 1; ticking := true |}, w)
  else (c, w).

(** ** Regular expressions, as far as the forms use them *)

Module RegExp.

(** Patterns without captures, back-references or look-around: for these a
    match exists exactly when a word of the pattern's language does. *)
Inductive Pattern :=
| Never
| Epsilon
| Chars (p : ascii -> bool)
| Seq (r1 r2 : Pattern)
| Alt (r1 r2 : Pattern)
| Star (r : Pattern).

(** [r+] *)
Definition Plus (r : Pattern) : Pattern := Seq r (Star r).

(** A literal character. *)
Definition Lit (c : ascii) : Pattern := Chars (Ascii.eqb c).

Definition anyChar : Pattern := Chars (fun _ => true).

Fixpoint nullable (r : Pattern) : bool :=
  match r with
  | Never => false
  | Epsilon => true
  | Chars _ => false
  | Seq r1 r2 => nullable r1 && nullable r2
  | Alt r1 r2 => nullable r1 || nullable r2
  | Star _ => true
  end.

(** What is left of [r] after the character [c]. *)
Fixpoint derive (c : ascii) (r : Pattern) : Pattern :=
  match r with
  | Never => Never
  | Epsilon => Never
  | Chars p => if p c then Epsilon else Never
  | Seq r1 r2 =>
      if nullable r1
      then Alt (Seq (derive c r1) r2) (derive c r2)
      else Seq (derive c r1) r2
  | Alt r1 r2 => Alt (derive c r1) (derive c r2)
  | Star r1 => Seq (derive c r1) (Star r1)
  end.

(** The whole string is a word of [r]: [/^r$/.test(s)]. *)
Fixpoint matches (r : Pattern) (s : string) : bool :=
  match s with
  | EmptyString => nullable r
  | String c s' => matches (derive c r) s'
  end.

(** Some part of the string is a word of [r]: [/r/.test(s)]. *)
Definition test (r : Pattern) (s : string) : bool :=
  matches (Seq (Star anyChar) (Seq r (Star anyChar))) s.

(** The words of a pattern. *)
Inductive Lang : Pattern -> string -> Prop :=
| Lang_Epsilon : Lang Epsilon EmptyString
| Lang_Chars p c : p c = true -> Lang (Chars p) (String c EmptyString)
| Lang_Seq r1 r2 s1 s2 :
    Lang r1 s1 -> Lang r2 s2 -> Lang (Seq r1 r2) (s1 +:+ s2)
| Lang_Alt_l r1 r2 s : Lang r1 s -> Lang (Alt r1 r2) s
| Lang_Alt_r r1 r2 s : Lang r2 s -> Lang (Alt r1 r2) s
| Lang_Star_nil r : Lang (Star r) EmptyString
| Lang_Star_cons r s1 s2 :
    Lang r s1 -> Lang (Star r) s2 -> Lang (Star r) (s1 +:+ s2).

End RegExp.

(** White space and line terminators among the code units below 256: tab,
    line feed, vertical tab, form feed, carriage return, space and the
    no-break space.  This is what [\s] matches and what [trim] removes. *)
Definition isSpace (c : ascii) : bool :=
  let n := N_of_ascii c in
  ((9 <=? n) && (n <=? 13) || (n =? 32) || (n =? 160))%N.

(** [\S] *)
Definition notSpace (c : ascii) : bool := negb (isSpace c).

(** [[^\s@]] *)
Definition notSpaceNorAt (c : ascii) : bool :=
  negb (isSpace c) && negb (Ascii.eqb c "@").

(** [String.prototype.trim] *)
Fixpoint trimStart (s : string) : string :=
  match s with
  | EmptyString => EmptyString
  | String c s' => if isSpace c then trimStart s' else s
  end.

Fixpoint trimEnd (s : string) : string :=
  match s with
  | EmptyString => EmptyString
  | String c s' =>
      match trimEnd s' with
      | EmptyString => if isSpace c then EmptyString else String c EmptyString
      | t => String c t
      end
  end.

Definition trim (s : string) : string := trimEnd (trimStart s).

(** Every character of the string passes [p]. *)
Fixpoint allChars (p : ascii -> bool) (s : string) : bool :=
  match s with
  | EmptyString => true
  | String c s' => p c && allChars p s'
  end.

(** How often the character occurs in the string. *)
Fixpoint occurrences (c : ascii) (s : string) : nat :=
  match s with
  | EmptyString => 0%nat
  | String c' s' => ((if Ascii.eqb c c' then 1 else 0) + occurrences c s')%nat
  end.

(** The letters of the messages that lie above 127. *)
Definition latin1 (n : N) : string := String (ascii_of_N n) EmptyString.
Definition a_acute : string := latin1 225.
Definition o_acute : string := latin1 243.
Definition n_tilde : string := latin1 241.

(** ** [LoginForm]: validation and submission *)

Module LoginForm.

(** [formData], [useState({ email: '', password: '' })] *)
Record FormData := {
  email : string;
  password : string
}.

Definition initialFormData : FormData := {| email := ""; password := "" |}.

(** [/\S+@\S+\.\S+/] *)
Definition emailPattern : RegExp.Pattern :=
  RegExp.Seq (RegExp.Plus (RegExp.Chars notSpace))
    (RegExp.Seq (RegExp.Lit "@")
       (RegExp.Seq (RegExp.Plus (RegExp.Chars notSpace))
          (RegExp.Seq (RegExp.Lit ".")
             (RegExp.Plus (RegExp.Chars notSpace))))).

(** [validate()]: the object of errors, one key per field at fault. *)
Definition validate (formData : FormData) : gmap string string :=
  let errors : gmap string string := ∅ in
  let errors :=
    if String.eqb (email formData) ""
    then <["email" := "El correo electr" +:+ o_acute +:+ "nico es requerido"]>
           errors
    else if negb (RegExp.test emailPattern (email formData))
    then <["email" := "Por favor ingresa un correo electr" +:+ o_acute
                      +:+ "nico v" +:+ a_acute +:+ "lido"]> errors
    else errors in
  let errors :=
    if String.eqb (password formData) ""
    then <["password" := "La contrase" +:+ n_tilde +:+ "a es requerida"]>
           errors
    else if (String.length (password formData) <? 6)%nat
    then <["password" := "La contrase" +:+ n_tilde
                         +:+ "a debe tener al menos 6 caracteres"]> errors
    else errors in
  errors.

(** [handleSubmit(e)]: the field errors it sets, and what it hands to
    [onSubmit], if anything. *)
Definition handleSubmit (formData : FormData)
  : gmap string string * option FormData :=
  let errors := validate formData in
  if (0 <? size errors)%nat
  then (errors, None)
  else (∅, Some formData).

End LoginForm.

(** ** [RegisterForm]: validation and submission *)

Module RegisterForm.

(** [formData], and the [userData] handed to [onRegister]. *)
Record FormData := {
  name : string;
  email : string;
  password : string;
  confirmPassword : string
}.

Definition initialFormData : FormData :=
  {| name := ""; email := ""; password := ""; confirmPassword := "" |}.

(** [/^[^\s@]+@[^\s@]+\.[^\s@]+$/] *)
Definition emailPattern : RegExp.Pattern :=
  RegExp.Seq (RegExp.Plus (RegExp.Chars notSpaceNorAt))
    (RegExp.Seq (RegExp.Lit "@")
       (RegExp.Seq (RegExp.Plus (RegExp.Chars notSpaceNorAt))
          (RegExp.Seq (RegExp.Lit ".")
             (RegExp.Plus (RegExp.Chars notSpaceNorAt))))).

(** The object of errors [validateForm()] builds and stores in
    [fieldErrors]; the function returns whether it has no key. *)
Definition formErrors (formData : FormData) : gmap string string :=
  let errors : gmap string string := ∅ in
  let errors :=
    if String.eqb (trim (name formData)) ""
    then <["name" := "El nombre es requerido"]> errors
    else if (String.length (trim (name formData)) <? 2)%nat
    then <["name" := "El nombre debe tener al menos 2 caracteres"]> errors
    else errors in
  let errors :=
    if String.eqb (email formData) ""
    then <["email" := "El correo electr" +:+ o_acute +:+ "nico es requerido"]>
           errors
    else if negb (RegExp.matches emailPattern (email formData))
    then <["email" := "Ingresa un correo electr" +:+ o_acute
                      +:+ "nico v" +:+ a_acute +:+ "lido"]> errors
    else errors in
  let errors :=
    if String.eqb (password formData) ""
    then <["password" := "La contrase" +:+ n_tilde +:+ "a es requerida"]>
           errors
    else if (String.length (password formData) <? 6)%nat
    then <["password" := "La contrase" +:+ n_tilde
                         +:+ "a debe tener al menos 6 caracteres"]> errors
    else errors in
  let errors :=
    if String.eqb (confirmPassword formData) ""
    then <["confirmPassword" := "Confirma tu contrase" +:+ n_tilde +:+ "a"]>
           errors
    else if negb (String.eqb (password formData) (confirmPassword formData))
    then <["confirmPassword" := "Las contrase" +:+ n_tilde
                                +:+ "as no coinciden"]> errors
    else errors in
  errors.

Definition validateForm (formData : FormData) : gmap string string * bool :=
  (formErrors formData, (size (formErrors formData) =? 0)%nat).

(** [handleSubmit(e)] up to the call of [onRegister]: the field errors it
    leaves, and the [userData] it hands over, if any. *)
Definition handleSubmit (formData : FormData)
  : gmap string string * option FormData :=
  let '(fieldErrors, valid) := validateForm formData in
  if negb valid then (fieldErrors, None)
  else (fieldErrors,
        Some {| name := trim (name formData);
                email := trim (email formData);
                password := password formData;
                confirmPassword := confirmPassword formData |}).

End RegisterForm.

(** ** The forms on their pages *)

(** [<LoginForm onSubmit={handleLogin} />]: a submission of the form. *)
Definition LoginPage_submit (server : Server AuthData)
    (formData : LoginForm.FormData) (w : World) : World :=
  match (LoginForm.handleSubmit formData).2 with
  | Some credentials =>
      handleLogin server (LoginForm.email credentials)
        (LoginForm.password credentials) w
  | None => w
  end.

(** [<RegisterForm onRegister={handleRegister} />]: a submission of the
    form, up to the return of [handleRegister]. *)
Definition RegisterPage_submit (server : Server AuthData)
    (formData : RegisterForm.FormData) (w : World) : World :=
  match (RegisterForm.handleSubmit formData).2 with
  | Some userData =>
      handleRegister server (RegisterForm.name userData)
        (RegisterForm.email userData) (RegisterForm.password userData)
        (RegisterForm.confirmPassword userData) w
  | None => w
  end.

(** The message [handleLogin] leaves in [error]: none after a success, the
    message of the body or of the rejection otherwise. *)
Definition handleLogin_error (server : Server AuthData)
    (email password : string) (onLine : bool) (w : World) : string :=
  match (authAPI_login server email password w).2 with
  | Fulfilled (AuthSuccess _ _) => ""
  | Fulfilled (AuthFailure message) =>
      if truthy message then default "" message
      else "Error al iniciar sesi" +:+ o_acute +:+ "n"
  | Rejected err =>
      if truthy (response err ≫= data_message)
      then default "" (response err ≫= data_message)
      else if decide (response_status err = Some 401)
      then "Credenciales incorrectas"
      else if bool_decide (code err = Some "NETWORK_ERROR") || negb onLine
      then "Error de conexi" +:+ o_acute +:+ "n. Verifique su conexi"
           +:+ o_acute +:+ "n a internet."
      else "Error al iniciar sesi" +:+ o_acute
           +:+ "n. Por favor intente nuevamente."
  end.

(** ** More notions the properties are stated with *)

(** The two keys of a session are in the store together or not at all. *)
Definition paired (w : World) : Prop :=
  is_Some (getItem "authToken" w) <-> is_Some (getItem "user" w).

(** The request as [axios.create] configures it, before any interceptor. *)
Definition plainRequest (path : string) (args : list (string * string))
  : Request :=
  {| url := "http://localhost/api" +:+ path;
     headers := defaultHeaders;
     params := args |}.

(** Whether a request was turned down with 401 can be told. *)
#[export] Instance unauthorized_dec {D} (r : Outcome D) : Decision (unauthorized r).
Proof.
  destruct r as [data|error].
  - right. by intros (e & ? & _).
  - destruct (decide (response_status error = Some 401)) as [Hs|Hs].
    + left. by exists error.
    + right. intros (e & [= <-] & ?). done.
Defined.

(* ===================================================================== *)
(** * Part II: properties                                                 *)
(* ===================================================================== *)

(** ** Insertion sort under a consistent comparator *)

Section PureSortFacts.
Context {A : Type} (cmp : A -> A -> Z).

Lemma insert_pure_perm x l : Permutation (x :: l) (insert_pure cmp x l).
Proof.
  induction l as [|y l IH]; simpl; [done|].
  destruct (0 <? cmp x y); [|done].
  rewrite perm_swap. by constructor.
Qed.

Lemma sort_pure_perm l : Permutation l (sort_pure cmp l).
Proof.
  induction l as [|x l IH]; simpl; [done|].
  rewrite <- insert_pure_perm. by constructor.
Qed.

Lemma sort_pure_elem x l : x ∈ sort_pure cmp l -> x ∈ l.
Proof. intros Hx. by rewrite (sort_pure_perm l). Qed.

(** A list in ascending order is left as it is: each element is compared
    with its successor only. *)
Lemma sort_pure_sorted_id l :
  Sorted (fun x y => cmp x y <= 0) l -> sort_pure cmp l = l.
Proof.
  induction 1 as [|x l Hl IH Hhd]; simpl; [done|].
  rewrite IH. destruct Hhd as [|y l' Hxy]; simpl; [done|].
  destruct (Z.ltb_spec 0 (cmp x y)); [lia|done].
Qed.

Context (Hcmp : Consistent cmp).

Lemma consistent_eq_sym x y : cmp x y = 0 -> cmp y x = 0.
Proof.
  intros Hxy.
  pose proof (consistent_antisym cmp Hcmp x y).
  pose proof (consistent_antisym cmp Hcmp y x). lia.
Qed.

Lemma consistent_tie z x y : cmp z x = 0 -> cmp z y = 0 -> cmp x y = 0.
Proof.
  intros Hzx Hzy.
  pose proof (consistent_eq_sym _ _ Hzx) as Hxz.
  pose proof (consistent_eq_sym _ _ Hzy) as Hyz.
  pose proof (consistent_trans cmp Hcmp x z y).
  pose proof (consistent_trans cmp Hcmp y z x).
  pose proof (consistent_antisym cmp Hcmp x y).
  pose proof (consistent_antisym cmp Hcmp y x). lia.
Qed.

Lemma insert_pure_sorted x l :
  StronglySorted (fun a b => cmp a b <= 0) l ->
  StronglySorted (fun a b => cmp a b <= 0) (insert_pure cmp x l).
Proof.
  induction 1 as [|y l Hl IH Hy]; simpl.
  - repeat constructor.
  - destruct (Z.ltb_spec 0 (cmp x y)) as [Hgt|Hle].
    + constructor; [done|].
      rewrite <- insert_pure_perm. constructor; [|done].
      apply (consistent_antisym cmp Hcmp) in Hgt. lia.
    + constructor; [by constructor|].
      constructor; [done|].
      eapply Forall_impl; [exact Hy|].
      intros b Hyb. by apply (consistent_trans cmp Hcmp x y b).
Qed.

Lemma sort_pure_sorted l :
  StronglySorted (fun a b => cmp a b <= 0) (sort_pure cmp l).
Proof.
  induction l; simpl; [constructor|by apply insert_pure_sorted].
Qed.

(** Insertion moves [x] only past elements it does not tie with. *)
Lemma insert_pure_stable z x l :
  filter (fun y => cmp z y = 0) (insert_pure cmp x l)
  = filter (fun y => cmp z y = 0) (x :: l).
Proof.
  induction l as [|y l IH]; simpl; [done|].
  destruct (Z.ltb_spec 0 (cmp x y)) as [Hgt|Hle]; [|done].
  rewrite !filter_cons, IH, !filter_cons.
  destruct (decide (cmp z y = 0)) as [Hzy|], (decide (cmp z x = 0)) as [Hzx|];
    try done.
  pose proof (consistent_tie z x y Hzx Hzy). lia.
Qed.

Lemma sort_pure_stable z l :
  filter (fun y => cmp z y = 0) (sort_pure cmp l)
  = filter (fun y => cmp z y = 0) l.
Proof.
  induction l as [|x l IH]; simpl; [done|].
  by rewrite insert_pure_stable, !filter_cons, IH.
Qed.

Lemma sort_pure_contract l : SortContract cmp l (sort_pure cmp l).
Proof.
  split; [apply sort_pure_perm|apply sort_pure_sorted|].
  intros z. apply sort_pure_stable.
Qed.

(** The contract leaves the engine no choice: two outcomes that meet it
    are the same list. *)
Lemma SortContract_unique l out1 out2 :
  SortContract cmp l out1 -> SortContract cmp l out2 -> out1 = out2.
Proof.
  intros [Hp1 Hs1 Ht1] [Hp2 Hs2 Ht2].
  assert (Hp : Permutation out1 out2) by (by rewrite <- Hp1).
  assert (Ht : forall z, filter (fun y => cmp z y = 0) out1
                         = filter (fun y => cmp z y = 0) out2)
    by (intros z; by rewrite Ht1, Ht2).
  clear Hp1 Hp2 Ht1 Ht2 l. revert out2 Hs2 Hp Ht.
  induction Hs1 as [|a l1 Hl1 IH Ha]; intros out2 Hs2 Hp Ht.
  - by apply Permutation_nil in Hp.
  - destruct Hs2 as [|b l2 Hl2 Hb].
    { symmetry in Hp. by apply Permutation_nil_cons in Hp. }
    assert (Hab : cmp a b = 0).
    { assert (cmp a b <= 0).
      { assert (Hin : b ∈ a :: l1) by (rewrite Hp; left).
        apply elem_of_cons in Hin as [->|Hin].
        - by rewrite (consistent_refl cmp Hcmp).
        - rewrite Forall_forall in Ha. by apply Ha. }
      assert (cmp b a <= 0).
      { assert (Hin : a ∈ b :: l2) by (rewrite <- Hp; left).
        apply elem_of_cons in Hin as [->|Hin].
        - by rewrite (consistent_refl cmp Hcmp).
        - rewrite Forall_forall in Hb. by apply Hb. }
      pose proof (consistent_antisym cmp Hcmp a b).
      pose proof (consistent_antisym cmp Hcmp b a). lia. }
    assert (a = b) as <-.
    { pose proof (Ht a) as Hta. rewrite !filter_cons in Hta.
      rewrite (decide_True (P := cmp a a = 0)) in Hta
        by apply (consistent_refl cmp Hcmp).
      rewrite (decide_True (P := cmp a b = 0)) in Hta by done.
      congruence. }
    f_equal. apply IH; [done|by apply Permutation_cons_inv in Hp|].
    intros z. specialize (Ht z). rewrite !filter_cons in Ht.
    destruct (decide (cmp z a = 0)); congruence.
Qed.

Lemma sort_pure_unique l out : SortContract cmp l out -> out = sort_pure cmp l.
Proof.
  intros Hout. eapply SortContract_unique; [exact Hout|apply sort_pure_contract].
Qed.

Lemma sort_pure_idemp l : sort_pure cmp (sort_pure cmp l) = sort_pure cmp l.
Proof.
  apply sort_pure_sorted_id, StronglySorted_Sorted, sort_pure_sorted.
Qed.

End PureSortFacts.

(** ** [Js.sort] when the comparator does not throw *)

Section SortAgreement.
Context {A : Type} (comparefn : A -> A -> Completion Z) (cmp : A -> A -> Z).

Lemma insert_sorted_pure x l :
  (forall y, y ∈ l -> comparefn x y = Normal (cmp x y)) ->
  insert_sorted comparefn x l = Normal (insert_pure cmp x l).
Proof.
  induction l as [|y l IH]; intros Hagree; simpl; [done|].
  rewrite (Hagree y) by left. simpl.
  destruct (0 <? cmp x y); [|done].
  rewrite IH; [done|]. intros y' Hy'. apply Hagree. by right.
Qed.

Lemma sort_pure_agree l :
  (forall x y, x ∈ l -> y ∈ l -> comparefn x y = Normal (cmp x y)) ->
  sort comparefn l = Normal (sort_pure cmp l).
Proof.
  induction l as [|x l IH]; intros Hagree; simpl; [done|].
  rewrite IH by (intros; apply Hagree; by right). simpl.
  apply insert_sorted_pure. intros y Hy.
  apply Hagree; [left|right]. by apply (sort_pure_elem cmp).
Qed.

End SortAgreement.

(** ** The order of the keys *)

Lemma ascii_compare_refl c : Ascii.compare c c = Eq.
Proof. unfold Ascii.compare. apply N.compare_refl. Qed.

Lemma string_compare_refl s : String.compare s s = Eq.
Proof.
  induction s as [|c s IH]; simpl; [done|]. by rewrite ascii_compare_refl.
Qed.

Lemma string_compare_trans a b c :
  String.compare a b <> Gt -> String.compare b c <> Gt ->
  String.compare a c <> Gt.
Proof.
  revert b c. induction a as [|x a IH]; intros [|y b] [|z c]; simpl; try done.
  unfold Ascii.compare.
  destruct (N.compare_spec (N_of_ascii x) (N_of_ascii y)) as [Hxy|Hxy|Hxy];
    destruct (N.compare_spec (N_of_ascii y) (N_of_ascii z)) as [Hyz|Hyz|Hyz];
    destruct (N.compare_spec (N_of_ascii x) (N_of_ascii z)) as [Hxz|Hxz|Hxz];
    try done; try lia.
  apply IH.
Qed.

Lemma key_compare_refl k : key_compare k k = Eq.
Proof. destruct k; simpl; [apply string_compare_refl|apply Z.compare_refl]. Qed.

Lemma key_compare_antisym a b : key_compare b a = CompOpp (key_compare a b).
Proof.
  destruct a, b; simpl; try done.
  - apply String.compare_antisym.
  - apply Z.compare_antisym.
Qed.

Lemma key_compare_trans a b c :
  key_compare a b <> Gt -> key_compare b c <> Gt -> key_compare a c <> Gt.
Proof.
  destruct a, b, c; simpl; try done.
  - apply string_compare_trans.
  - rewrite !Z.compare_le_iff. lia.
Qed.

Lemma key_compare_eq a b : key_compare a b = Eq <-> a = b.
Proof.
  split; [|intros ->; apply key_compare_refl].
  destruct a, b; simpl; try done.
  - intros ->%String.compare_eq_iff. done.
  - intros ->%Z.compare_eq. done.
Qed.

Lemma okey_compare_refl k : okey_compare k k = Eq.
Proof. destruct k; simpl; [apply key_compare_refl|done]. Qed.

Lemma okey_compare_antisym a b : okey_compare b a = CompOpp (okey_compare a b).
Proof. destruct a, b; simpl; try done. apply key_compare_antisym. Qed.

Lemma okey_compare_trans a b c :
  okey_compare a b <> Gt -> okey_compare b c <> Gt -> okey_compare a c <> Gt.
Proof. destruct a, b, c; simpl; try done. apply key_compare_trans. Qed.

Lemma okey_compare_eq a b : okey_compare a b = Eq <-> a = b.
Proof.
  destruct a, b; simpl; try (split; done).
  rewrite key_compare_eq. split; congruence.
Qed.

Lemma signed_pos d c : 0 < signed d c <-> signed d (CompOpp c) < 0.
Proof. destruct d, c; simpl; lia. Qed.

Lemma signed_le_asc c : signed asc c <= 0 <-> c <> Gt.
Proof. destruct c; simpl; split; (done || lia). Qed.

Lemma signed_le_desc c : signed desc c <= 0 <-> CompOpp c <> Gt.
Proof. destruct c; simpl; split; (done || lia). Qed.

Lemma signed_zero d c : signed d c = 0 <-> c = Eq.
Proof. destruct d, c; simpl; split; (done || lia). Qed.

Lemma signed_opp c : signed desc c = - signed asc c.
Proof. by destruct c. Qed.

Section KeyCompare.
Context `{Host}.

Lemma keyCompare_consistent st : Consistent (keyCompare st).
Proof.
  unfold keyCompare. split.
  - intros x. by rewrite okey_compare_refl, signed_zero.
  - intros x y.
    by rewrite (okey_compare_antisym (sortKey _ x) (sortKey _ y)), signed_pos.
  - intros x y z. destruct (sortDirection st).
    + rewrite !signed_le_asc. apply okey_compare_trans.
    + rewrite !signed_le_desc, <- !okey_compare_antisym.
      intros ??. by eapply okey_compare_trans.
Qed.

Lemma keyCompare_zero st a b :
  keyCompare st a b = 0 <-> sameKey (sortField st) a b.
Proof. unfold keyCompare, sameKey. by rewrite signed_zero, okey_compare_eq. Qed.

End KeyCompare.

(** ** The comparator on records that have a key *)

#[local] Arguments lessThan : simpl never.

Section Comparator.
Context `{Host}.

Lemma lessThan_instants (s t : Z) :
  lessThan (DateObj (Some s)) (DateObj (Some t)) = (s <? t).
Proof.
  unfold lessThan. simpl. unfold QArith_base.Qle_bool. simpl.
  rewrite !Z.mul_1_r. symmetry. apply Z.ltb_antisym.
Qed.

Lemma lessThan_texts (s t : string) :
  lessThan (Str s) (Str t) = String.ltb s t.
Proof. done. Qed.

Lemma order_instants d (s t : Z) :
  (if s <? t then Normal (if decide (d = asc) then -1 else 1)
   else if t <? s then Normal (if decide (d = asc) then 1 else -1)
   else Normal 0) = Normal (signed d (Z.compare s t)).
Proof.
  destruct (Z.compare_spec s t), (Z.ltb_spec s t), (Z.ltb_spec t s),
    d; simpl; try done; lia.
Qed.

Lemma order_texts d (s t : string) :
  (if String.ltb s t then Normal (if decide (d = asc) then -1 else 1)
   else if String.ltb t s then Normal (if decide (d = asc) then 1 else -1)
   else Normal 0) = Normal (signed d (String.compare s t)).
Proof.
  unfold String.ltb. rewrite (String.compare_antisym t s).
  by destruct (String.compare s t), d.
Qed.

(** On two records with keys the comparator answers with the order of the
    keys, and does not throw. *)
Lemma compareUsers_keyed st a b ka kb :
  sortKey (sortField st) a = Some ka ->
  sortKey (sortField st) b = Some kb ->
  compareUsers st a b = Normal (signed (sortDirection st) (key_compare ka kb)).
Proof.
  destruct st as [f d]. unfold compareUsers, sortKey. simpl.
  destruct f; simpl.
  - destruct (name a) as [| |sa|]; try done.
    destruct (name b) as [| |sb|]; try done.
    intros [= <-] [= <-]. simpl.
    rewrite !lessThan_texts. apply order_texts.
  - destruct (email a) as [| |sa|]; try done.
    destruct (email b) as [| |sb|]; try done.
    intros [= <-] [= <-]. simpl.
    rewrite !lessThan_texts. apply order_texts.
  - intros Ha Hb.
    assert (exists s, newDate (created_at a) = DateObj (Some s)
                      /\ ka = InstantKey s) as (s & -> & ->).
    { destruct (created_at a) as [| |sa|]; simplify_eq/=; eauto.
      destruct (Date_parse sa); simplify_eq/=; eauto. }
    assert (exists t, newDate (created_at b) = DateObj (Some t)
                      /\ kb = InstantKey t) as (t & -> & ->).
    { destruct (created_at b) as [| |sb|]; simplify_eq/=; eauto.
      destruct (Date_parse sb); simplify_eq/=; eauto. }
    simpl. rewrite !lessThan_instants. apply order_instants.
Qed.

Lemma compareUsers_keyCompare st a b :
  is_Some (sortKey (sortField st) a) ->
  is_Some (sortKey (sortField st) b) ->
  compareUsers st a b = Normal (keyCompare st a b).
Proof.
  intros [ka Ha] [kb Hb]. rewrite (compareUsers_keyed st a b ka kb Ha Hb).
  unfold keyCompare. by rewrite Ha, Hb.
Qed.

(** The two directions differ in the sign of the answer, and in nothing
    else: what throws in one throws in the other. *)
Lemma compareUsers_desc f a b :
  compareUsers {| sortField := f; sortDirection := desc |} a b
  = Z.opp <$> compareUsers {| sortField := f; sortDirection := asc |} a b.
Proof.
  unfold compareUsers. simpl.
  destruct (decide (f = CreatedAt)); simpl.
  - destruct (is_string (newDate (prop a f))); simpl.
    + destruct (call_toLowerCase (newDate (prop a f))); simpl; [|done].
      destruct (call_toLowerCase (newDate (prop b f))); simpl; [|done].
      by repeat case_match.
    + by repeat case_match.
  - destruct (is_string (prop a f)); simpl.
    + destruct (call_toLowerCase (prop a f)); simpl; [|done].
      destruct (call_toLowerCase (prop b f)); simpl; [|done].
      by repeat case_match.
    + by repeat case_match.
Qed.

(** The sorted view of a listing whose records all have keys. *)
Lemma sortedUsers_keyed users st :
  WellFormed (sortField st) users ->
  sortedUsers users st = Normal (sort_pure (keyCompare st) users).
Proof.
  intros Hwf. unfold sortedUsers.
  destruct users as [|u users]; [done|].
  apply sort_pure_agree. intros x y Hx Hy.
  unfold WellFormed in Hwf. rewrite Forall_forall in Hwf.
  apply compareUsers_keyCompare; by apply Hwf.
Qed.

Lemma WellFormed_perm f l l' :
  Permutation l l' -> WellFormed f l -> WellFormed f l'.
Proof. unfold WellFormed. by intros ->. Qed.

End Comparator.

(** ** The sort state *)

Lemma handleSort_same f d :
  handleSort f {| sortField := f; sortDirection := d |}
  = {| sortField := f; sortDirection := opposite d |}.
Proof. unfold handleSort. simpl. rewrite decide_True by done. by destruct d. Qed.

Lemma handleSort_other f g d :
  g <> f ->
  handleSort f {| sortField := g; sortDirection := d |}
  = {| sortField := f; sortDirection := asc |}.
Proof. intros Hne. unfold handleSort. simpl. by rewrite decide_False. Qed.

(** C1: [handleSort f] on the active column flips the direction and keeps
    the column; on another column it makes [f] the active column and sets
    the direction to ascending. *)
Theorem handleSort_toggle_or_reset (f : Field) (st : SortState) :
  (sortField st = f ->
     sortField (handleSort f st) = sortField st
     /\ sortDirection (handleSort f st) = opposite (sortDirection st))
  /\ (sortField st <> f ->
     sortField (handleSort f st) = f
     /\ sortDirection (handleSort f st) = asc).
Proof.
  destruct st as [g d]. simpl. split.
  - intros ->. by rewrite handleSort_same.
  - intros Hne. by rewrite handleSort_other.
Qed.

Lemma handleSort_toggle_or_reset_witness :
  (sortField initialSortState = Name
   /\ sortField (handleSort Name initialSortState) = Name
   /\ sortDirection (handleSort Name initialSortState) = desc)
  /\ (sortField initialSortState <> Email
   /\ sortField (handleSort Email initialSortState) = Email
   /\ sortDirection (handleSort Email initialSortState) = asc).
Proof.
  split.
  - split; [reflexivity|].
    apply (handleSort_toggle_or_reset Name initialSortState). reflexivity.
  - split; [discriminate|].
    apply (handleSort_toggle_or_reset Email initialSortState). discriminate.
Defined.

(** C5, as stated, fails: from the initial state two clicks on the creation
    date leave the direction descending, not ascending. *)
Lemma handleSort_twice_counterexample :
  sortDirection (handleSort CreatedAt (handleSort CreatedAt initialSortState))
  <> sortDirection initialSortState.
Proof. discriminate. Qed.

(** C5, amended: twice on the active column gives the state back; twice on
    another column [f] leaves [f] active and descending. *)
Theorem handleSort_twice (f : Field) (st : SortState) :
  (sortField st = f -> handleSort f (handleSort f st) = st)
  /\ (sortField st <> f ->
      handleSort f (handleSort f st)
      = {| sortField := f; sortDirection := desc |}).
Proof.
  destruct st as [g d]. simpl. split.
  - intros ->. rewrite !handleSort_same. by destruct d.
  - intros Hne. by rewrite handleSort_other, handleSort_same.
Qed.

Lemma handleSort_twice_witness :
  (sortField initialSortState = Name
   /\ handleSort Name (handleSort Name initialSortState) = initialSortState)
  /\ (sortField initialSortState <> CreatedAt
   /\ handleSort CreatedAt (handleSort CreatedAt initialSortState)
      = {| sortField := CreatedAt; sortDirection := desc |}).
Proof.
  split.
  - split; [reflexivity|].
    apply (handleSort_twice Name initialSortState). reflexivity.
  - split; [discriminate|].
    apply (handleSort_twice CreatedAt initialSortState). discriminate.
Defined.

Lemma click_field h st :
  sortField st <> Email -> sortField (click h st) <> Email.
Proof.
  destruct st as [g d]. simpl. intros Hg.
  destruct h; unfold click; simpl; try done;
    unfold handleSort; simpl; case_decide; simpl; congruence.
Qed.

Lemma reachable_not_email st : reachable st -> sortField st <> Email.
Proof.
  induction 1 as [|st st' _ IH Hstep]; [done|].
  destruct Hstep. by apply click_field.
Qed.

(** C10: the e-mail header has no click handler, the other two call
    [handleSort] with their column; hence no state reached by clicks from
    the initial state has the e-mail column active, and [getSortIcon] never
    shows an active icon for it. *)
Theorem email_column_never_active :
  (onClick NameHeader = Some (handleSort Name)
   /\ onClick EmailHeader = None
   /\ onClick CreatedAtHeader = Some (handleSort CreatedAt))
  /\ forall st, reachable st ->
       sortField st <> Email /\ getSortIcon Email st = NeutralChevron.
Proof.
  split; [done|]. intros st Hst.
  pose proof (reachable_not_email st Hst) as Hne.
  split; [done|]. unfold getSortIcon. by rewrite decide_True.
Qed.

Lemma email_column_never_active_witness :
  reachable (click CreatedAtHeader (click EmailHeader initialSortState))
  /\ sortField (click CreatedAtHeader (click EmailHeader initialSortState))
     <> Email
  /\ getSortIcon Email (click CreatedAtHeader (click EmailHeader initialSortState))
     = NeutralChevron.
Proof.
  assert (Hr : reachable
                 (click CreatedAtHeader (click EmailHeader initialSortState))).
  { eapply reachable_step; [|apply step_click].
    eapply reachable_step; [|apply step_click].
    apply reachable_initial. }
  split; [exact Hr|].
  apply (proj2 email_column_never_active _ Hr).
Defined.

(** ** The session *)

Lemma getItem_setItem key value w : getItem key (setItem key value w) = Some value.
Proof. unfold getItem, setItem. simpl. apply lookup_insert_eq. Qed.

Lemma getItem_setItem_ne key key' value w :
  key <> key' -> getItem key' (setItem key value w) = getItem key' w.
Proof. intros Hne. unfold getItem, setItem. simpl. by apply lookup_insert_ne. Qed.

Lemma getItem_removeItem key w : getItem key (removeItem key w) = None.
Proof. unfold getItem, removeItem. simpl. apply lookup_delete_eq. Qed.

Lemma getItem_removeItem_ne key key' w :
  key <> key' -> getItem key' (removeItem key w) = getItem key' w.
Proof. intros Hne. unfold getItem, removeItem. simpl. by apply lookup_delete_ne. Qed.

Lemma getItem_navigate key path w : getItem key (navigate path w) = getItem key w.
Proof. done. Qed.

Lemma removeItem_absent key w : getItem key w = None -> removeItem key w = w.
Proof.
  destruct w as [store route]. unfold getItem, removeItem. simpl.
  intros Hnone. by rewrite delete_id.
Qed.

Lemma invalidate_absent w :
  getItem "authToken" (invalidate w) = None
  /\ getItem "user" (invalidate w) = None.
Proof.
  unfold invalidate. split.
  - by rewrite getItem_removeItem_ne, getItem_removeItem.
  - apply getItem_removeItem.
Qed.

Lemma invalidate_location w : location (invalidate w) = location w.
Proof. done. Qed.

Lemma loggedOut_invalidate w : loggedOut (navigate "/login" (invalidate w)).
Proof.
  destruct (invalidate_absent w) as [Htoken Huser].
  unfold loggedOut. by rewrite !getItem_navigate.
Qed.

(** ** The stored owner read back *)

Lemma app_cons c (s t : string) : String c s +:+ t = String c (s +:+ t).
Proof. reflexivity. Qed.

Lemma app_empty_l (s : string) : "" +:+ s = s.
Proof. reflexivity. Qed.

Lemma app_empty_r (s : string) : s +:+ "" = s.
Proof.
  induction s as [|c s IH]; [done|]. by rewrite app_cons, IH.
Qed.


Lemma getItem_establish_token c w : getItem "authToken" (establish c w) = Some (token c).
Proof. unfold establish. by rewrite getItem_setItem_ne, getItem_setItem. Qed.















(** What the pages do with a session is the two operations above. *)
Lemma handleLogin_establish server email password w user token :
  server (sentRequest "/auth/login"
            [("email", email); ("password", password)] w)
  = Fulfilled (AuthSuccess user token) ->
  handleLogin server email password w
  = navigate "/users" (establish {| token := token; owner := user |} w).
Proof.
  intros Hanswer. unfold handleLogin, authAPI_login, api_request.
  by rewrite Hanswer.
Qed.

Lemma handleLogout_invalidate server w :
  handleLogout server w
  = navigate "/login" (invalidate (authAPI_logout server w).1).
Proof.
  unfold handleLogout. destruct (authAPI_logout server w) as [w' r].
  by destruct r.
Qed.

(** ** The response interceptor *)

Lemma responseInterceptor_401 {D} (r : Outcome D) w :
  unauthorized r ->
  responseInterceptor r w = (navigate "/login" (invalidate w), r).
Proof.
  intros (error & -> & Hstatus). unfold responseInterceptor.
  by rewrite decide_True.
Qed.

Lemma responseInterceptor_outcome {D} (r : Outcome D) w :
  (responseInterceptor r w).2 = r.
Proof. by destruct r. Qed.

Lemma api_request_401 {D} (server : Server D) path args w :
  answers401 server ->
  exists r, unauthorized r
    /\ api_request server path args w = (navigate "/login" (invalidate w), r).
Proof.
  intros Hserver. unfold api_request.
  eexists. split; [apply Hserver|].
  apply responseInterceptor_401, Hserver.
Qed.

(** C9: whatever the server makes of the remote logout, [handleLogout]
    leaves the store without the two keys and the browser on the login
    page. *)
Theorem handleLogout_always :
  (forall data w, loggedOut (handleLogout (fun _ => Fulfilled data) w))
  /\ (forall error w, loggedOut (handleLogout (fun _ => Rejected error) w))
  /\ (forall server w, loggedOut (handleLogout server w)).
Proof.
  assert (forall server w, loggedOut (handleLogout server w)) as Hall.
  { intros server w. rewrite handleLogout_invalidate.
    apply loggedOut_invalidate. }
  split; [|split]; intros; apply Hall.
Qed.

Lemma api_request_loggedOut {D} (server : Server D) path args w :
  answers401 server -> loggedOut (api_request server path args w).1.
Proof.
  intros Hserver.
  destruct (api_request_401 server path args w Hserver) as (r & _ & ->).
  apply loggedOut_invalidate.
Qed.

(** C4: a 401 to any call made through the instance [api] (login, register,
    listing, logout) removes both keys from the store and sends the browser
    to the login page, and the page that made the call leaves it so. *)
Theorem unauthorized_anywhere :
  (forall D (server : Server D) path args w,
     answers401 server -> loggedOut (api_request server path args w).1)
  /\ (forall server, answers401 server -> forall w,
        (forall email password,
           loggedOut (authAPI_login server email password w).1
           /\ loggedOut (handleLogin server email password w))
        /\ (forall name email password confirmation,
           loggedOut (authAPI_register server name email password confirmation w).1
           /\ loggedOut (handleRegister server name email password confirmation w)))
  /\ (forall server, answers401 server -> forall w,
        (forall sortBy sortDirection,
           loggedOut (usersAPI_getUsers server sortBy sortDirection w).1)
        /\ loggedOut (loadUsers server w))
  /\ (forall server, answers401 server -> forall w,
        loggedOut (authAPI_logout server w).1
        /\ loggedOut (handleLogout server w)).
Proof.
  split; [|split; [|split]].
  - intros D server path args w. apply api_request_loggedOut.
  - intros server Hserver w. split.
    + intros email password. split; [by apply api_request_loggedOut|].
      unfold handleLogin, authAPI_login.
      destruct (api_request_401 server "/auth/login"
                  [("email", email); ("password", password)] w Hserver)
        as (r & (error & -> & _) & ->).
      apply loggedOut_invalidate.
    + intros name email password confirmation.
      split; [by apply api_request_loggedOut|].
      unfold handleRegister, authAPI_register.
      destruct (api_request_401 server "/auth/register"
                  [("name", name); ("email", email); ("password", password);
                   ("password_confirmation", confirmation)] w Hserver)
        as (r & (error & -> & _) & ->).
      apply loggedOut_invalidate.
  - intros server Hserver w. split.
    + intros sortBy sortDirection. by apply api_request_loggedOut.
    + unfold loadUsers, usersAPI_getUsers.
      destruct (api_request_401 server "/users"
                  [("sort_by", "name"); ("sort_direction", "asc")] w Hserver)
        as (r & (error & -> & Hstatus) & ->).
      rewrite decide_True by done.
      apply (loggedOut_invalidate (navigate "/login" (invalidate w))).
  - intros server Hserver w. split; [by apply api_request_loggedOut|].
    rewrite handleLogout_invalidate. apply loggedOut_invalidate.
Qed.

Lemma unauthorized_anywhere_witness :
  answers401 (fun _ : Request => @Rejected UsersData expired)
  /\ loggedOut (usersAPI_getUsers (fun _ => Rejected expired)
                  "name" "asc" signedIn).1
  /\ loggedOut (loadUsers (fun _ => Rejected expired) signedIn).
Proof.
  assert (Hserver : answers401 (fun _ : Request => @Rejected UsersData expired)).
  { intros request. exists expired. split; reflexivity. }
  split; [exact Hserver|].
  destruct unauthorized_anywhere as (_ & _ & Husers & _).
  destruct (Husers _ Hserver signedIn) as [Hcall Hpage].
  split; [apply Hcall|exact Hpage].
Defined.

(** ** The sorted view *)

Lemma filter_sameKey `{Host} st u (l : list User) :
  filter (sameKey (sortField st) u) l = filter (fun y => keyCompare st u y = 0) l.
Proof.
  induction l as [|x l IH]; [done|].
  rewrite !filter_cons, IH.
  destruct (decide (sameKey (sortField st) u x)) as [Hs|Hs],
           (decide (keyCompare st u x = 0)) as [Hk|Hk]; try done.
  - by apply keyCompare_zero in Hs.
  - by apply keyCompare_zero in Hk.
Qed.

(** The view of a listing whose records all have keys meets the contract
    of [sort] for the order of the keys, and is the only list that does. *)
Lemma sortedUsers_contract `{Host} users st :
  WellFormed (sortField st) users ->
  exists out, sortedUsers users st = Normal out
    /\ SortContract (keyCompare st) users out
    /\ forall out', SortContract (keyCompare st) users out' -> out' = out.
Proof.
  intros Hwf. exists (sort_pure (keyCompare st) users).
  split; [by apply sortedUsers_keyed|].
  split; [apply sort_pure_contract, keyCompare_consistent|].
  intros out'. apply sort_pure_unique, keyCompare_consistent.
Qed.

(** ** Letters and their case *)

(** [toLowerCase] leaves a code unit as it is or takes a capital to its
    small letter, and never answers with a capital. *)
Lemma lowerChar_cases c :
  bool_decide (lowerChar c = c) || bool_decide ((c, lowerChar c) ∈ letterCases)
  = true.
Proof. destruct c as [[] [] [] [] [] [] [] []]; vm_compute; reflexivity. Qed.

Lemma lowerChar_small c : bool_decide (lowerChar c ∈ capitals) = false.
Proof. destruct c as [[] [] [] [] [] [] [] []]; vm_compute; reflexivity. Qed.

Lemma letterCases_lower :
  Forall (fun p => lowerChar p.1 = p.2 /\ lowerChar p.2 = p.2) letterCases.
Proof. apply (bool_decide_unpack _). vm_compute. exact I. Qed.

Lemma letterCases_one_capital :
  Forall (fun p => Forall (fun q => p.2 = q.2 -> p.1 = q.1) letterCases)
    letterCases.
Proof. apply (bool_decide_unpack _). vm_compute. exact I. Qed.

Lemma lowerChar_pair C s :
  (C, s) ∈ letterCases -> lowerChar C = s /\ lowerChar s = s.
Proof.
  intros Hin. exact (proj1 (Forall_forall _ _) letterCases_lower _ Hin).
Qed.

Lemma letterCases_inj C C' s :
  (C, s) ∈ letterCases -> (C', s) ∈ letterCases -> C = C'.
Proof.
  intros Hin Hin'.
  pose proof (proj1 (Forall_forall _ _) letterCases_one_capital _ Hin) as Hall.
  exact (proj1 (Forall_forall _ _) Hall _ Hin' eq_refl).
Qed.

Lemma lowerChar_or c : lowerChar c = c \/ (c, lowerChar c) ∈ letterCases.
Proof.
  pose proof (lowerChar_cases c) as Hc. apply orb_true_iff in Hc.
  destruct Hc as [Hc|Hc]; [left|right]; by apply bool_decide_eq_true in Hc.
Qed.

Lemma sameLetter_lowerChar c : sameLetter c (lowerChar c).
Proof.
  destruct (lowerChar_or c) as [->|Hin]; [constructor|].
  by apply sameLetter_capital_small.
Qed.

(** Two code units have the same lower case exactly when they are the same
    letter. *)
Lemma lowerChar_eq_iff c d : lowerChar c = lowerChar d <-> sameLetter c d.
Proof.
  split.
  - intros Heq.
    destruct (lowerChar_or c) as [Hc|Hc], (lowerChar_or d) as [Hd|Hd].
    + rewrite Hc, Hd in Heq. subst. constructor.
    + rewrite Hc in Heq. rewrite <- Heq in Hd.
      by apply sameLetter_small_capital.
    + rewrite Hd in Heq. rewrite Heq in Hc.
      by apply sameLetter_capital_small.
    + rewrite Heq in Hc. rewrite (letterCases_inj _ _ _ Hc Hd). constructor.
  - intros [c'|C s Hin|C s Hin]; [done|..];
      destruct (lowerChar_pair _ _ Hin) as [-> ->]; done.
Qed.

Lemma toLowerCase_eq_iff s t :
  toLowerCase s = toLowerCase t <-> equalIgnoringCase s t.
Proof.
  split.
  - revert t. induction s as [|c s IH]; intros [|d t]; simpl; try done.
    + constructor.
    + intros [= Hc Hs]. constructor; [by apply lowerChar_eq_iff|by apply IH].
  - induction 1 as [|c d s t Hc _ IH]; [done|].
    simpl. apply lowerChar_eq_iff in Hc. by rewrite Hc, IH.
Qed.

Lemma toLowerCase_folds s :
  equalIgnoringCase s (toLowerCase s)
  /\ Forall (fun c => c ∉ capitals) (list_ascii_of_string (toLowerCase s)).
Proof.
  induction s as [|c s [IHsame IHsmall]]; simpl.
  - split; constructor.
  - split; constructor; try done.
    + apply sameLetter_lowerChar.
    + pose proof (lowerChar_small c) as Hc. by apply bool_decide_eq_false in Hc.
Qed.

(** The comparator on two texts answers a tie exactly when the texts are
    equal but for the case of their letters. *)
Lemma compareUsers_text_tie `{Host} st a b sa sb :
  sortKey (sortField st) a = Some (TextKey (toLowerCase sa)) ->
  sortKey (sortField st) b = Some (TextKey (toLowerCase sb)) ->
  compareUsers st a b = Normal 0 <-> equalIgnoringCase sa sb.
Proof.
  intros Ha Hb. rewrite (compareUsers_keyed st a b _ _ Ha Hb).
  rewrite <- toLowerCase_eq_iff. simpl. split.
  - intros [= Hzero]. apply signed_zero in Hzero.
    by apply String.compare_eq_iff.
  - intros ->. f_equal. apply signed_zero, string_compare_refl.
Qed.

(** C2: the comparator orders creation dates by their instants and names
    and e-mails by their lower-cased text; the view of a listing whose
    records have these values is a rearrangement of the listing in that
    order; and beta, Alpha, gamma come out as Alpha, beta, gamma.

    The lower-cased text of a text is that text with every capital letter
    replaced by its small letter: it is equal to the text but for the case
    of its letters, and it holds no capital; the 56 capitals, those of
    the alphabet first, become their small letters.  So two names, or two
    e-mails, tie exactly when they are equal but for the case of their
    letters, as ana and Ana; and Zoe, ana, Bob, which the code units order
    as Bob, Zoe, ana, come out as ana, Bob, Zoe. *)
Theorem sortedUsers_by_instant_and_folded_text `{Host} :
  (forall d a b sa sb ta tb,
     created_at a = Str sa -> created_at b = Str sb ->
     Date_parse sa = Some ta -> Date_parse sb = Some tb ->
     compareUsers {| sortField := CreatedAt; sortDirection := d |} a b
     = Normal (signed d (Z.compare ta tb)))
  /\ (forall d a b sa sb,
     name a = Str sa -> name b = Str sb ->
     compareUsers {| sortField := Name; sortDirection := d |} a b
     = Normal (signed d (String.compare (toLowerCase sa) (toLowerCase sb))))
  /\ (forall d a b sa sb,
     email a = Str sa -> email b = Str sb ->
     compareUsers {| sortField := Email; sortDirection := d |} a b
     = Normal (signed d (String.compare (toLowerCase sa) (toLowerCase sb))))
  /\ (forall users st,
     WellFormed (sortField st) users ->
     exists out, sortedUsers users st = Normal out
       /\ Permutation users out
       /\ StronglySorted (inOrder st) out)
  /\ (map name <$> sortedUsers scenarioA
                     {| sortField := Name; sortDirection := asc |})
     = Normal [Str "Alpha"; Str "beta"; Str "gamma"]
  /\ (forall s,
     equalIgnoringCase s (toLowerCase s)
     /\ Forall (fun c => c ∉ capitals) (list_ascii_of_string (toLowerCase s)))
  /\ toLowerCase "ABCDEFGHIJKLMNOPQRSTUVWXYZ" = "abcdefghijklmnopqrstuvwxyz"
  /\ (length capitals = 56%nat
      /\ toLowerCase (string_of_list_ascii capitals)
         = string_of_list_ascii smalls)
  /\ (forall d a b sa sb,
     name a = Str sa -> name b = Str sb ->
     compareUsers {| sortField := Name; sortDirection := d |} a b = Normal 0
     <-> equalIgnoringCase sa sb)
  /\ (forall d a b sa sb,
     email a = Str sa -> email b = Str sb ->
     compareUsers {| sortField := Email; sortDirection := d |} a b = Normal 0
     <-> equalIgnoringCase sa sb)
  /\ (forall d, compareUsers {| sortField := Name; sortDirection := d |}
                  (named 1 (Str "ana")) (named 2 (Str "Ana")) = Normal 0)
  /\ lessThan (Str "Bob") (Str "ana") = true
  /\ (map name <$> sortedUsers mixedCase
                     {| sortField := Name; sortDirection := asc |})
     = Normal [Str "ana"; Str "Bob"; Str "Zoe"].
Proof.
  split; [|split; [|split; [|split; [|split; [|split; [|split; [|split;
    [|split; [|split; [|split; [|split]]]]]]]]]]].
  - intros d a b sa sb ta tb Ha Hb Hta Htb.
    apply (compareUsers_keyed {| sortField := CreatedAt; sortDirection := d |}
             a b (InstantKey ta) (InstantKey tb));
      unfold sortKey; simpl; [rewrite Ha|rewrite Hb]; simpl;
      [by rewrite Hta|by rewrite Htb].
  - intros d a b sa sb Ha Hb.
    apply (compareUsers_keyed {| sortField := Name; sortDirection := d |}
             a b (TextKey _) (TextKey _));
      unfold sortKey; simpl; [by rewrite Ha|by rewrite Hb].
  - intros d a b sa sb Ha Hb.
    apply (compareUsers_keyed {| sortField := Email; sortDirection := d |}
             a b (TextKey _) (TextKey _));
      unfold sortKey; simpl; [by rewrite Ha|by rewrite Hb].
  - intros users st Hwf.
    destruct (sortedUsers_contract users st Hwf) as (out & Hout & [Hp Hs _] & _).
    by exists out.
  - reflexivity.
  - apply toLowerCase_folds.
  - reflexivity.
  - split; reflexivity.
  - intros d a b sa sb Ha Hb.
    apply (compareUsers_text_tie {| sortField := Name; sortDirection := d |});
      unfold sortKey; simpl; [by rewrite Ha|by rewrite Hb].
  - intros d a b sa sb Ha Hb.
    apply (compareUsers_text_tie {| sortField := Email; sortDirection := d |});
      unfold sortKey; simpl; [by rewrite Ha|by rewrite Hb].
  - by intros [].
  - reflexivity.
  - reflexivity.
Qed.

Lemma sortedUsers_by_instant_and_folded_text_witness :
  (Date_parse (Host := isoHost) "2024-03-25" = Some 1711324800000
   /\ Date_parse (Host := isoHost) "2024-01-15" = Some 1705276800000
   /\ compareUsers (H := isoHost)
        {| sortField := CreatedAt; sortDirection := asc |}
        (dated 2 (Str "2024-03-25")) (dated 1 (Str "2024-01-15"))
      = Normal 1)
  /\ (compareUsers (H := isoHost)
        {| sortField := Name; sortDirection := asc |}
        (named 3 (Str "Bob")) (named 2 (Str "ana"))
      = Normal 1)
  /\ (compareUsers (H := isoHost)
        {| sortField := Email; sortDirection := desc |}
        {| id := 1; name := Str "Ana"; email := Str "ANA@Test.com";
           created_at := Undefined |}
        {| id := 2; name := Str "ana"; email := Str "ana@test.COM";
           created_at := Undefined |}
      = Normal 0)
  /\ WellFormed (H := isoHost) CreatedAt listing
  /\ exists out,
       sortedUsers (H := isoHost) listing
         {| sortField := CreatedAt; sortDirection := desc |} = Normal out
       /\ Permutation listing out
       /\ StronglySorted
            (inOrder (H := isoHost)
               {| sortField := CreatedAt; sortDirection := desc |}) out.
Proof.
  assert (Hwf : WellFormed (H := isoHost) CreatedAt listing).
  { unfold WellFormed, listing. repeat constructor; eexists; reflexivity. }
  destruct (sortedUsers_by_instant_and_folded_text (H := isoHost))
    as (Hdate & Hname & _ & Hview & _ & _ & _ & _ & _ & Hemail & _).
  split; [|split; [|split; [|split]]].
  - split; [reflexivity|]. split; [reflexivity|].
    apply (Hdate asc (dated 2 (Str "2024-03-25")) (dated 1 (Str "2024-01-15"))
             "2024-03-25" "2024-01-15" 1711324800000 1705276800000);
      reflexivity.
  - apply (Hname asc (named 3 (Str "Bob")) (named 2 (Str "ana"))
             "Bob" "ana"); reflexivity.
  - apply (Hemail desc _ _ "ANA@Test.com" "ana@test.COM");
      [reflexivity|reflexivity|].
    apply toLowerCase_eq_iff. reflexivity.
  - exact Hwf.
  - apply (Hview listing {| sortField := CreatedAt; sortDirection := desc |} Hwf).
Defined.

(** An element of a filtered list sits in the list itself, between what
    the filter made of the part before it and of the part behind it. *)
Lemma filter_split {A} (P : A -> Prop) `{forall x, Decision (P x)}
    (l xs : list A) y ys :
  filter P l = (xs ++ y :: ys)%list ->
  exists l1 l2, l = (l1 ++ y :: l2)%list /\ filter P l1 = xs /\ filter P l2 = ys.
Proof.
  revert xs. induction l as [|z l IH]; intros xs Hl.
  - by destruct xs.
  - rewrite filter_cons in Hl. destruct (decide (P z)) as [Hz|Hz].
    + destruct xs as [|x xs]; simpl in Hl; injection Hl as -> Hl.
      * exists [], l. by rewrite filter_nil.
      * destruct (IH xs Hl) as (l1 & l2 & -> & <- & <-).
        exists (x :: l1), l2. by rewrite filter_cons, decide_True.
    + destruct (IH xs Hl) as (l1 & l2 & -> & <- & <-).
      exists (z :: l1), l2. by rewrite filter_cons, decide_False.
Qed.

(** C3: the view is stable (the records that tie with any given record
    stand in the view as they stood in the listing, so of two records that
    tie the one that came first comes first); descending order is the
    ascending comparator with its sign inverted; and on the listing
    [twins], whose two names tie, the reversed ascending view is not the
    descending view. *)
Theorem sortedUsers_stable_sign_inverted `{Host} :
  (forall users st out,
     WellFormed (sortField st) users ->
     sortedUsers users st = Normal out ->
     (forall u, filter (sameKey (sortField st) u) out
                = filter (sameKey (sortField st) u) users)
     /\ (forall a b l1 l2 l3,
          users = (l1 ++ a :: l2 ++ b :: l3)%list ->
          sameKey (sortField st) a b ->
          exists o1 o2 o3, out = (o1 ++ a :: o2 ++ b :: o3)%list))
  /\ (forall f a b,
     compareUsers {| sortField := f; sortDirection := desc |} a b
     = Z.opp <$> compareUsers {| sortField := f; sortDirection := asc |} a b)
  /\ (exists up down,
     sortedUsers twins {| sortField := Name; sortDirection := asc |} = Normal up
     /\ sortedUsers twins {| sortField := Name; sortDirection := desc |}
        = Normal down
     /\ sameKey Name (named 1 (Str "ana")) (named 2 (Str "Ana"))
     /\ up = twins /\ down = twins /\ rev up <> down).
Proof.
  split; [|split].
  - intros users st out Hwf Hout.
    assert (Hstable : forall u, filter (sameKey (sortField st) u) out
                                = filter (sameKey (sortField st) u) users).
    { intros u. rewrite sortedUsers_keyed in Hout by done.
      injection Hout as <-. rewrite !filter_sameKey.
      apply sort_pure_stable, keyCompare_consistent. }
    split; [exact Hstable|].
    intros a b l1 l2 l3 -> Hab. specialize (Hstable a).
    rewrite filter_app, filter_cons, decide_True in Hstable by done.
    rewrite filter_app, filter_cons, decide_True in Hstable by done.
    apply filter_split in Hstable as (o1 & r & -> & _ & Hr).
    apply filter_split in Hr as (o2 & o3 & -> & _ & _).
    by exists o1, o2, o3.
  - apply compareUsers_desc.
  - exists twins, twins. by repeat split.
Qed.

Lemma sortedUsers_stable_sign_inverted_witness :
  WellFormed (H := isoHost) CreatedAt listing
  /\ sortedUsers (H := isoHost) listing
       {| sortField := CreatedAt; sortDirection := asc |}
     = Normal listingByDate
  /\ (forall u,
        filter (sameKey (H := isoHost) CreatedAt u) listingByDate
        = filter (sameKey (H := isoHost) CreatedAt u) listing)
  /\ (forall a b l1 l2 l3,
        listing = (l1 ++ a :: l2 ++ b :: l3)%list ->
        sameKey (H := isoHost) CreatedAt a b ->
        exists o1 o2 o3, listingByDate = (o1 ++ a :: o2 ++ b :: o3)%list).
Proof.
  assert (Hwf : WellFormed (H := isoHost) CreatedAt listing).
  { unfold WellFormed, listing. repeat constructor; eexists; reflexivity. }
  assert (Hout : sortedUsers (H := isoHost) listing
                   {| sortField := CreatedAt; sortDirection := asc |}
                 = Normal listingByDate)
    by reflexivity.
  split; [exact Hwf|]. split; [exact Hout|].
  destruct (sortedUsers_stable_sign_inverted (H := isoHost)) as (Hstable & _).
  apply (Hstable listing {| sortField := CreatedAt; sortDirection := asc |}
           _ Hwf Hout).
Defined.

(** C6: the view of a view is that view, and a listing that is already in
    the order of the sort state is its own view. *)
Theorem sortedUsers_idempotent `{Host} (users : list User) (st : SortState) :
  WellFormed (sortField st) users ->
  (exists out, sortedUsers users st = Normal out
     /\ sortedUsers out st = Normal out)
  /\ (Sorted (inOrder st) users -> sortedUsers users st = Normal users).
Proof.
  intros Hwf. split.
  - exists (sort_pure (keyCompare st) users).
    split; [by apply sortedUsers_keyed|].
    rewrite sortedUsers_keyed.
    + by rewrite sort_pure_idemp by apply keyCompare_consistent.
    + eapply WellFormed_perm; [apply sort_pure_perm|done].
  - intros Hsorted. rewrite sortedUsers_keyed by done.
    f_equal. by apply sort_pure_sorted_id.
Qed.

Lemma sortedUsers_idempotent_witness :
  WellFormed (H := isoHost) Name twins
  /\ Sorted (inOrder (H := isoHost)
               {| sortField := Name; sortDirection := asc |}) twins
  /\ (exists out,
        sortedUsers (H := isoHost) twins
          {| sortField := Name; sortDirection := asc |} = Normal out
        /\ sortedUsers (H := isoHost) out
             {| sortField := Name; sortDirection := asc |} = Normal out)
  /\ sortedUsers (H := isoHost) twins
       {| sortField := Name; sortDirection := asc |} = Normal twins.
Proof.
  assert (Hwf : WellFormed (H := isoHost) Name twins).
  { unfold WellFormed, twins. repeat constructor; eexists; reflexivity. }
  assert (Hsorted : Sorted (inOrder (H := isoHost)
                              {| sortField := Name; sortDirection := asc |})
                      twins).
  { unfold twins, inOrder. repeat constructor. vm_compute. discriminate. }
  split; [exact Hwf|]. split; [exact Hsorted|].
  destruct (sortedUsers_idempotent (H := isoHost) twins
              {| sortField := Name; sortDirection := asc |} Hwf)
    as [Hview Hfixed].
  split; [exact Hview|exact (Hfixed Hsorted)].
Defined.

(** C8, as stated, fails: in ascending order by creation date the record
    whose date is [null] ends up behind the record from 1969, though it
    came first in the listing, and in descending order it ends up in front
    of it; and by name, a record whose name is [null] is never ranked below
    a named one: asked with the named record first the comparator throws,
    asked the other way round it reports a tie. *)
Lemma missing_value_not_lowest_counterexample :
  sortedUsers (H := isoHost) (rev undated)
    {| sortField := CreatedAt; sortDirection := asc |}
  = Normal [dated 1 (Str "1969-12-31"); dated 2 Null]
  /\ sortedUsers (H := isoHost) (rev undated)
       {| sortField := CreatedAt; sortDirection := desc |}
     = Normal [dated 2 Null; dated 1 (Str "1969-12-31")]
  /\ compareUsers (H := isoHost)
       {| sortField := Name; sortDirection := asc |}
       (named 1 (Str "beta")) (named 2 Null)
     = Throw TypeError
  /\ compareUsers (H := isoHost)
       {| sortField := Name; sortDirection := asc |}
       (named 2 Null) (named 1 (Str "beta"))
     = Normal 0.
Proof. repeat split; reflexivity. Qed.

Lemma lessThan_invalid_date `{Host} tv :
  lessThan (DateObj None) (DateObj tv) = false
  /\ lessThan (DateObj tv) (DateObj None) = false.
Proof. unfold lessThan. simpl. by destruct tv. Qed.

(** C8, amended: a [null] creation date is compared as the instant 0, the
    start of 1970, so the view has such a record behind the records from
    before 1970 when ascending; a missing creation date ties with every
    record; and for the name and the e-mail the comparator throws a
    [TypeError] when its first record holds a string and its second holds
    [null] or nothing. *)
Theorem missing_values_unranked `{Host} :
  (forall d a b s t,
     created_at a = Null -> created_at b = Str s -> Date_parse s = Some t ->
     compareUsers {| sortField := CreatedAt; sortDirection := d |} a b
     = Normal (signed d (Z.compare 0 t))
     /\ compareUsers {| sortField := CreatedAt; sortDirection := d |} b a
        = Normal (signed d (Z.compare t 0)))
  /\ (forall users d,
     Forall (fun u => created_at u = Null
                      \/ exists s, created_at u = Str s
                                   /\ is_Some (Date_parse s)) users ->
     exists out,
       sortedUsers users {| sortField := CreatedAt; sortDirection := d |}
       = Normal out
       /\ Permutation users out
       /\ StronglySorted
            (inOrder {| sortField := CreatedAt; sortDirection := d |}) out)
  /\ (forall d a b,
     created_at a = Undefined ->
     compareUsers {| sortField := CreatedAt; sortDirection := d |} a b = Normal 0
     /\ compareUsers {| sortField := CreatedAt; sortDirection := d |} b a
        = Normal 0)
  /\ (forall f d a b s,
     f <> CreatedAt -> prop a f = Str s ->
     prop b f = Null \/ prop b f = Undefined ->
     compareUsers {| sortField := f; sortDirection := d |} a b
     = Throw TypeError).
Proof.
  split; [|split; [|split]].
  - intros d a b s t Ha Hb Ht. split.
    + apply (compareUsers_keyed
               {| sortField := CreatedAt; sortDirection := d |}
               a b (InstantKey 0) (InstantKey t));
        unfold sortKey; simpl; [by rewrite Ha|by rewrite Hb, Ht].
    + apply (compareUsers_keyed
               {| sortField := CreatedAt; sortDirection := d |}
               b a (InstantKey t) (InstantKey 0));
        unfold sortKey; simpl; [by rewrite Hb, Ht|by rewrite Ha].
  - intros users d Husers.
    assert (Hwf : WellFormed CreatedAt users).
    { unfold WellFormed. eapply Forall_impl; [exact Husers|].
      intros u [Hnull|(s & Hs & t & Ht)]; unfold sortKey; simpl.
      - rewrite Hnull. by eexists.
      - rewrite Hs, Ht. by eexists. }
    destruct (sortedUsers_contract users
                {| sortField := CreatedAt; sortDirection := d |} Hwf)
      as (out & Hout & [Hp Hs _] & _).
    by exists out.
  - intros d a b Ha. unfold compareUsers. simpl. rewrite Ha. simpl.
    assert (exists tv, newDate (created_at b) = DateObj tv) as [tv ->]
      by (destruct (created_at b); simpl; eauto).
    simpl. destruct (lessThan_invalid_date tv) as [Hlt Hgt].
    by rewrite ?Hlt, ?Hgt.
  - intros f d a b s Hf Ha Hb. unfold compareUsers. simpl.
    rewrite decide_False by done. rewrite Ha. simpl.
    by destruct Hb as [-> | ->].
Qed.

Lemma missing_values_unranked_witness :
  (created_at (dated 2 Null) = Null
   /\ created_at (dated 1 (Str "1969-12-31")) = Str "1969-12-31"
   /\ Date_parse (Host := isoHost) "1969-12-31" = Some (-86400000)
   /\ compareUsers (H := isoHost)
        {| sortField := CreatedAt; sortDirection := asc |}
        (dated 2 Null) (dated 1 (Str "1969-12-31"))
      = Normal 1)
  /\ (exists out,
        sortedUsers (H := isoHost) undated
          {| sortField := CreatedAt; sortDirection := asc |} = Normal out
        /\ Permutation undated out
        /\ StronglySorted
             (inOrder (H := isoHost)
                {| sortField := CreatedAt; sortDirection := asc |}) out)
  /\ (created_at (named 1 (Str "beta")) = Undefined
   /\ compareUsers (H := isoHost)
        {| sortField := CreatedAt; sortDirection := asc |}
        (named 1 (Str "beta")) (dated 1 (Str "1969-12-31"))
      = Normal 0)
  /\ (Name <> CreatedAt
   /\ prop (named 1 (Str "beta")) Name = Str "beta"
   /\ prop (named 2 Null) Name = Null
   /\ compareUsers (H := isoHost)
        {| sortField := Name; sortDirection := asc |}
        (named 1 (Str "beta")) (named 2 Null)
      = Throw TypeError).
Proof.
  destruct (missing_values_unranked (H := isoHost))
    as (Hnull & Hview & Hmissing & Htext).
  split; [|split; [|split]].
  - split; [reflexivity|]. split; [reflexivity|]. split; [reflexivity|].
    apply (Hnull asc (dated 2 Null) (dated 1 (Str "1969-12-31"))
             "1969-12-31" (-86400000)); reflexivity.
  - apply (Hview undated asc). unfold undated.
    constructor; [|constructor; [|constructor]].
    + right. exists "1969-12-31". split; [reflexivity|]. eexists. reflexivity.
    + left. reflexivity.
  - split; [reflexivity|].
    apply (Hmissing asc (named 1 (Str "beta")) (dated 1 (Str "1969-12-31"))).
    reflexivity.
  - split; [discriminate|]. split; [reflexivity|]. split; [reflexivity|].
    apply (Htext Name asc (named 1 (Str "beta")) (named 2 Null) "beta");
      [discriminate|reflexivity|left; reflexivity].
Defined.

(* ===================================================================== *)
(** * Part III: further properties of the components                      *)
(* ===================================================================== *)

(** ** The comparator: when it throws, and what it answers *)

Lemma Number_lt_asym x y : Number_lt x y = true -> Number_lt y x = false.
Proof.
  destruct x as [| |p|], y as [| |q|]; simpl; try done.
  unfold QArith_base.Qle_bool.
  destruct (Z.leb_spec (QArith_base.Qnum q * Z.pos (QArith_base.Qden p))
                       (QArith_base.Qnum p * Z.pos (QArith_base.Qden q)));
    destruct (Z.leb_spec (QArith_base.Qnum p * Z.pos (QArith_base.Qden q))
                         (QArith_base.Qnum q * Z.pos (QArith_base.Qden p)));
    simpl; try done; lia.
Qed.

Lemma string_ltb_asym s t : String.ltb s t = true -> String.ltb t s = false.
Proof.
  unfold String.ltb. rewrite (String.compare_antisym s t).
  by destruct (String.compare t s).
Qed.

Lemma lessThan_asym `{Host} u v : lessThan u v = true -> lessThan v u = false.
Proof.
  unfold lessThan.
  destruct u as [| |s|tu], v as [| |t|tv];
    try apply Number_lt_asym; apply string_ltb_asym.
Qed.

(** The values the comparator compares, after its two conversions. *)
Lemma compareUsers_unfold `{Host} st a b :
  compareUsers st a b
  = (let av := if decide (sortField st = CreatedAt)
               then newDate (prop a (sortField st)) else prop a (sortField st) in
     let bv := if decide (sortField st = CreatedAt)
               then newDate (prop b (sortField st)) else prop b (sortField st) in
     '(av, bv) ← (if is_string av
                  then al ← call_toLowerCase av;
                       bl ← call_toLowerCase bv; Normal (al, bl)
                  else Normal (av, bv));
     if lessThan av bv
     then Normal (if decide (sortDirection st = asc) then -1 else 1)
     else if lessThan bv av
     then Normal (if decide (sortDirection st = asc) then 1 else -1)
     else Normal 0).
Proof. unfold compareUsers. by destruct (decide (sortField st = CreatedAt)). Qed.

Lemma newDate_not_string `{Host} v : is_string (newDate v) = false.
Proof. by destruct v. Qed.

(** X1: the comparator throws exactly when the active column is a text
    column, the first record holds a string there and the second does not;
    sorting by creation date never makes it throw. *)
Theorem compareUsers_throws_iff `{Host} (st : SortState) (a b : User) :
  compareUsers st a b = Throw TypeError
  <-> sortField st <> CreatedAt
      /\ is_string (prop a (sortField st)) = true
      /\ is_string (prop b (sortField st)) = false.
Proof.
  rewrite compareUsers_unfold.
  destruct (decide (sortField st = CreatedAt)) as [Hf|Hf]; simpl.
  - rewrite newDate_not_string. simpl.
    split; [by repeat case_match|by intros [? _]].
  - destruct (prop a (sortField st)) as [| |sa|ta]; simpl;
      try (split; [by repeat case_match|by intros (_ & ? & _)]).
    destruct (prop b (sortField st)) as [| |sb|tb]; simpl;
      try (split; [done|by intros (_ & _ & ?)]).
    split; [by repeat case_match|by intros (_ & _ & ?)].
Qed.

Lemma compareUsers_throws_iff_witness :
  (Name <> CreatedAt
   /\ is_string (prop (named 1 (Str "beta")) Name) = true
   /\ is_string (prop (named 2 Null) Name) = false)
  /\ compareUsers (H := isoHost)
       {| sortField := Name; sortDirection := desc |}
       (named 1 (Str "beta")) (named 2 Null)
     = Throw TypeError.
Proof.
  assert (Hcase : Name <> CreatedAt
                  /\ is_string (prop (named 1 (Str "beta")) Name) = true
                  /\ is_string (prop (named 2 Null) Name) = false).
  { split; [discriminate|]. split; reflexivity. }
  split; [exact Hcase|].
  apply (compareUsers_throws_iff (H := isoHost)
           {| sortField := Name; sortDirection := desc |}
           (named 1 (Str "beta")) (named 2 Null)).
  exact Hcase.
Defined.

Lemma order_answer d (lt gt : bool) x :
  (if lt then Normal (if decide (d = asc) then -1 else 1)
   else if gt then Normal (if decide (d = asc) then 1 else -1)
   else Normal 0) = Normal x ->
  x = -1 \/ x = 0 \/ x = 1.
Proof. destruct lt, gt, d; simpl; intros [= <-]; lia. Qed.

Lemma order_swap d (lt gt : bool) x y :
  (lt = true -> gt = false) ->
  (if lt then Normal (if decide (d = asc) then -1 else 1)
   else if gt then Normal (if decide (d = asc) then 1 else -1)
   else Normal 0) = Normal x ->
  (if gt then Normal (if decide (d = asc) then -1 else 1)
   else if lt then Normal (if decide (d = asc) then 1 else -1)
   else Normal 0) = Normal y ->
  y = - x.
Proof.
  intros Hasym. destruct lt, gt, d; simpl; intros [= <-] [= <-]; try done;
    by specialize (Hasym eq_refl).
Qed.

(** X2: the comparator answers -1, 0 or 1, and with its two records
    swapped it answers the opposite, whenever neither call throws. *)
Theorem compareUsers_antisymmetric `{Host} (st : SortState) (a b : User) x y :
  compareUsers st a b = Normal x ->
  compareUsers st b a = Normal y ->
  y = - x /\ (x = -1 \/ x = 0 \/ x = 1).
Proof.
  rewrite !compareUsers_unfold. cbv zeta.
  generalize (if decide (sortField st = CreatedAt)
              then newDate (prop a (sortField st)) else prop a (sortField st)).
  generalize (if decide (sortField st = CreatedAt)
              then newDate (prop b (sortField st)) else prop b (sortField st)).
  intros bv av.
  assert (forall u v,
            (if lessThan u v
             then Normal (if decide (sortDirection st = asc) then -1 else 1)
             else if lessThan v u
             then Normal (if decide (sortDirection st = asc) then 1 else -1)
             else Normal 0) = Normal x ->
            (if lessThan v u
             then Normal (if decide (sortDirection st = asc) then -1 else 1)
             else if lessThan u v
             then Normal (if decide (sortDirection st = asc) then 1 else -1)
             else Normal 0) = Normal y ->
            y = - x /\ (x = -1 \/ x = 0 \/ x = 1)) as Hswap.
  { intros u v Hx Hy. split; [|by eapply order_answer].
    eapply order_swap; [apply (lessThan_asym u v)|exact Hx|exact Hy]. }
  destruct av as [| |sa|ta], bv as [| |sb|tb];
    cbn [is_string call_toLowerCase mbind Completion_bind]; try done;
    apply Hswap.
Qed.

Lemma compareUsers_antisymmetric_witness :
  compareUsers (H := isoHost) {| sortField := Name; sortDirection := desc |}
    (named 1 (Str "beta")) (named 2 (Str "Alpha")) = Normal (-1)
  /\ compareUsers (H := isoHost) {| sortField := Name; sortDirection := desc |}
       (named 2 (Str "Alpha")) (named 1 (Str "beta")) = Normal 1
  /\ 1 = - -1 /\ (-1 = -1 \/ -1 = 0 \/ -1 = 1).
Proof.
  assert (Hx : compareUsers (H := isoHost)
                 {| sortField := Name; sortDirection := desc |}
                 (named 1 (Str "beta")) (named 2 (Str "Alpha")) = Normal (-1))
    by reflexivity.
  assert (Hy : compareUsers (H := isoHost)
                 {| sortField := Name; sortDirection := desc |}
                 (named 2 (Str "Alpha")) (named 1 (Str "beta")) = Normal 1)
    by reflexivity.
  split; [exact Hx|]. split; [exact Hy|].
  apply (compareUsers_antisymmetric (H := isoHost) _ _ _ _ _ Hx Hy).
Defined.

(** ** The sorted view on any listing *)

Section SortAnyComparator.
Context {A : Type} (comparefn : A -> A -> Completion Z).

Lemma insert_sorted_perm x l out :
  insert_sorted comparefn x l = Normal out -> Permutation (x :: l) out.
Proof.
  revert out. induction l as [|y l IH]; intros out; simpl.
  - by intros [= <-].
  - destruct (comparefn x y) as [c|e]; simpl; [|done].
    destruct (0 <? c); [|by intros [= <-]].
    destruct (insert_sorted comparefn x l) as [r|e]; simpl; [|done].
    intros [= <-]. rewrite perm_swap. constructor. by apply IH.
Qed.

Lemma sort_perm l out : sort comparefn l = Normal out -> Permutation l out.
Proof.
  revert out. induction l as [|x l IH]; intros out; simpl.
  - by intros [= <-].
  - destruct (sort comparefn l) as [s|e]; simpl; [|done].
    intros Hout. apply insert_sorted_perm in Hout.
    rewrite <- Hout. constructor. by apply IH.
Qed.

Lemma sort_total l :
  (forall x y, exists c, comparefn x y = Normal c) ->
  exists out, sort comparefn l = Normal out.
Proof.
  intros Htotal.
  exists (sort_pure (fun x y => match comparefn x y with
                                | Normal c => c
                                | Throw _ => 0
                                end) l).
  apply sort_pure_agree. intros x y _ _.
  by destruct (Htotal x y) as [c ->].
Qed.

End SortAnyComparator.

Lemma sortedUsers_perm `{Host} users st out :
  sortedUsers users st = Normal out -> Permutation users out.
Proof.
  unfold sortedUsers.
  destruct users as [|u users]; [by intros [= <-]|]. apply sort_perm.
Qed.

Lemma compareUsers_by_date_normal `{Host} d a b :
  exists c,
    compareUsers {| sortField := CreatedAt; sortDirection := d |} a b = Normal c.
Proof.
  rewrite compareUsers_unfold. simpl.
  rewrite newDate_not_string. simpl. repeat case_match; by eexists.
Qed.

(** X3: whatever the listing holds, a view that is produced is a
    rearrangement of the listing; the empty listing and a listing of one
    record are returned as they are, without a comparison. *)
Theorem sortedUsers_rearranges `{Host} :
  (forall users st out,
     sortedUsers users st = Normal out -> Permutation users out)
  /\ (forall st, sortedUsers [] st = Normal [])
  /\ (forall u st, sortedUsers [u] st = Normal [u]).
Proof. split; [|done]. intros users st out. apply sortedUsers_perm. Qed.

Lemma sortedUsers_rearranges_witness :
  sortedUsers (H := isoHost) twins
    {| sortField := CreatedAt; sortDirection := asc |} = Normal twins
  /\ Permutation twins twins.
Proof.
  assert (Hout : sortedUsers (H := isoHost) twins
                   {| sortField := CreatedAt; sortDirection := asc |}
                 = Normal twins) by reflexivity.
  split; [exact Hout|].
  apply (proj1 (sortedUsers_rearranges (H := isoHost)) _ _ _ Hout).
Defined.

(** X4: sorting by creation date always produces a view, in both
    directions, whatever the records hold in that column: missing values,
    [null] and dates that do not parse included. *)
Theorem sortedUsers_by_date_total `{Host} (users : list User) (d : Direction) :
  exists out,
    sortedUsers users {| sortField := CreatedAt; sortDirection := d |}
    = Normal out
    /\ Permutation users out.
Proof.
  assert (exists out, sortedUsers users
            {| sortField := CreatedAt; sortDirection := d |} = Normal out)
    as [out Hout].
  { unfold sortedUsers. destruct users as [|u users]; [by eexists|].
    apply sort_total. intros x y. apply compareUsers_by_date_normal. }
  exists out. split; [done|]. by apply sortedUsers_perm in Hout.
Qed.

(** ** Ascending against descending *)

Lemma StronglySorted_snoc {A} (R : A -> A -> Prop) l x :
  StronglySorted R l -> Forall (fun y => R y x) l ->
  StronglySorted R (l ++ [x])%list.
Proof.
  induction 1 as [|y l Hl IH Hy]; intros Hx; simpl.
  - repeat constructor.
  - apply Forall_cons in Hx as [Hyx Hx].
    constructor; [by apply IH|].
    apply Forall_app. split; [done|by constructor].
Qed.

Lemma StronglySorted_rev {A} (R : A -> A -> Prop) l :
  StronglySorted R l -> StronglySorted (fun a b => R b a) (rev l).
Proof.
  induction 1 as [|x l Hl IH Hx]; simpl; [constructor|].
  apply StronglySorted_snoc; [done|].
  apply Forall_forall. intros y Hy. rewrite Forall_forall in Hx.
  apply Hx. apply list_elem_of_In. apply list_elem_of_In in Hy.
  by apply in_rev.
Qed.

Lemma StronglySorted_weaken {A} (R R' : A -> A -> Prop) l :
  (forall a b, R a b -> R' a b) -> StronglySorted R l -> StronglySorted R' l.
Proof.
  intros HR. induction 1 as [|x l Hl IH Hx]; constructor; [done|].
  eapply Forall_impl; [exact Hx|]. intros b. apply HR.
Qed.

Lemma filter_rev {A} (P : A -> Prop) `{forall x, Decision (P x)} (l : list A) :
  filter P (rev l) = rev (filter P l).
Proof.
  induction l as [|x l IH]; simpl; [done|].
  rewrite filter_app, IH, !filter_cons, filter_nil.
  destruct (decide (P x)); simpl; [done|by rewrite app_nil_r].
Qed.

Lemma filter_key_absent {A K} (k : A -> K) `{EqDecision K} (l : list A) c :
  ~ In c (map k l) -> filter (fun y => c = k y) l = [].
Proof.
  induction l as [|x l IH]; simpl; [done|]. intros Hc.
  rewrite filter_cons. destruct (decide (c = k x)) as [->|_].
  - exfalso. apply Hc. by left.
  - apply IH. intros Hin. apply Hc. by right.
Qed.

Lemma filter_key_short {A K} (k : A -> K) `{EqDecision K} (l : list A) c :
  NoDup (map k l) -> (length (filter (fun y => c = k y) l) <= 1)%nat.
Proof.
  induction l as [|x l IH]; simpl; [lia|].
  intros [Hx Hl]%NoDup_cons. rewrite filter_cons.
  destruct (decide (c = k x)) as [->|_]; [|by apply IH].
  simpl. rewrite filter_key_absent; [simpl; lia|].
  intros Hin. apply Hx. by apply list_elem_of_In.
Qed.

Lemma rev_short {A} (l : list A) : (length l <= 1)%nat -> rev l = l.
Proof. destruct l as [|x [|y l]]; simpl; (done || lia). Qed.

Lemma keyCompare_flip `{Host} f a b :
  keyCompare {| sortField := f; sortDirection := desc |} a b
  = keyCompare {| sortField := f; sortDirection := asc |} b a.
Proof.
  unfold keyCompare. simpl.
  rewrite (okey_compare_antisym (sortKey f a) (sortKey f b)).
  by destruct (okey_compare (sortKey f a) (sortKey f b)).
Qed.

(** X5: when no two records of the listing have the same key in the
    active column, the descending view is the ascending view reversed. *)
Theorem sortedUsers_reversed_without_ties `{Host}
    (users : list User) (f : Field) (up down : list User) :
  WellFormed f users ->
  NoDup (map (sortKey f) users) ->
  sortedUsers users {| sortField := f; sortDirection := asc |} = Normal up ->
  sortedUsers users {| sortField := f; sortDirection := desc |} = Normal down ->
  rev up = down.
Proof.
  intros Hwf Hkeys Hup Hdown.
  destruct (sortedUsers_contract users
              {| sortField := f; sortDirection := asc |} Hwf)
    as (up' & Hup' & [Hp Hs Ht] & _).
  destruct (sortedUsers_contract users
              {| sortField := f; sortDirection := desc |} Hwf)
    as (down' & Hdown' & _ & Hunique).
  rewrite Hup in Hup'. injection Hup' as <-.
  rewrite Hdown in Hdown'. injection Hdown' as <-.
  apply Hunique. split.
  - rewrite Hp. apply Permutation_rev.
  - apply StronglySorted_rev in Hs.
    eapply StronglySorted_weaken; [|exact Hs].
    intros a b. simpl. by rewrite keyCompare_flip.
  - intros z.
    rewrite <- !(filter_sameKey {| sortField := f; sortDirection := desc |}).
    simpl. rewrite filter_rev.
    specialize (Ht z).
    rewrite <- !(filter_sameKey {| sortField := f; sortDirection := asc |}) in Ht.
    simpl in Ht. rewrite Ht. apply rev_short.
    by apply (filter_key_short (sortKey f)).
Qed.

Lemma sortedUsers_reversed_without_ties_witness :
  WellFormed (H := isoHost) Name scenarioA
  /\ NoDup (map (sortKey (H := isoHost) Name) scenarioA)
  /\ sortedUsers (H := isoHost) scenarioA
       {| sortField := Name; sortDirection := asc |}
     = Normal [named 2 (Str "Alpha"); named 1 (Str "beta");
               named 3 (Str "gamma")]
  /\ sortedUsers (H := isoHost) scenarioA
       {| sortField := Name; sortDirection := desc |}
     = Normal [named 3 (Str "gamma"); named 1 (Str "beta");
               named 2 (Str "Alpha")]
  /\ rev [named 2 (Str "Alpha"); named 1 (Str "beta"); named 3 (Str "gamma")]
     = [named 3 (Str "gamma"); named 1 (Str "beta"); named 2 (Str "Alpha")].
Proof.
  assert (Hwf : WellFormed (H := isoHost) Name scenarioA).
  { unfold WellFormed, scenarioA. repeat constructor; eexists; reflexivity. }
  assert (Hkeys : NoDup (map (sortKey (H := isoHost) Name) scenarioA)).
  { apply (bool_decide_unpack _). vm_compute. exact I. }
  assert (Hup : sortedUsers (H := isoHost) scenarioA
                  {| sortField := Name; sortDirection := asc |}
                = Normal [named 2 (Str "Alpha"); named 1 (Str "beta");
                          named 3 (Str "gamma")]) by reflexivity.
  assert (Hdown : sortedUsers (H := isoHost) scenarioA
                    {| sortField := Name; sortDirection := desc |}
                  = Normal [named 3 (Str "gamma"); named 1 (Str "beta");
                            named 2 (Str "Alpha")]) by reflexivity.
  split; [exact Hwf|]. split; [exact Hkeys|].
  split; [exact Hup|]. split; [exact Hdown|].
  apply (sortedUsers_reversed_without_ties (H := isoHost)
           scenarioA Name _ _ Hwf Hkeys Hup Hdown).
Defined.

(** ** The sort state under clicks *)

Lemma reachable_click h st : reachable st -> reachable (click h st).
Proof. intros Hst. eapply reachable_step; [exact Hst|apply step_click]. Qed.

(** X6: the states the table can be brought into by clicking headers are
    exactly the four whose column is the name or the creation date, in
    either direction. *)
Theorem reachable_iff (st : SortState) :
  reachable st <-> sortField st <> Email.
Proof.
  split; [apply reachable_not_email|].
  destruct st as [[] []]; simpl; intros Hne; try done.
  - apply reachable_initial.
  - apply (reachable_click NameHeader initialSortState), reachable_initial.
  - apply (reachable_click CreatedAtHeader initialSortState), reachable_initial.
  - apply (reachable_click CreatedAtHeader
             (click CreatedAtHeader initialSortState)),
          (reachable_click CreatedAtHeader initialSortState),
          reachable_initial.
Qed.

Lemma reachable_iff_witness :
  sortField {| sortField := CreatedAt; sortDirection := desc |} <> Email
  /\ reachable {| sortField := CreatedAt; sortDirection := desc |}.
Proof.
  assert (Hne : sortField {| sortField := CreatedAt; sortDirection := desc |}
                <> Email) by discriminate.
  split; [exact Hne|].
  apply (reachable_iff {| sortField := CreatedAt; sortDirection := desc |}).
  exact Hne.
Defined.

(** X7: after [n + 1] calls of [handleSort f] in a row the column is [f];
    the direction alternates, starting from the opposite of the old
    direction when [f] was the active column, and from ascending when it
    was not. *)
Theorem handleSort_repeated (f : Field) (st : SortState) (n : nat) :
  Nat.iter (S n) (handleSort f) st
  = {| sortField := f;
       sortDirection :=
         if decide (sortField st = f)
         then (if Nat.even n then opposite (sortDirection st)
               else sortDirection st)
         else (if Nat.even n then asc else desc) |}.
Proof.
  induction n as [|n IH].
  - destruct st as [g d]. simpl.
    destruct (decide (g = f)) as [->|Hne].
    + apply handleSort_same.
    + by apply handleSort_other.
  - change (Nat.iter (S (S n)) (handleSort f) st)
      with (handleSort f (Nat.iter (S n) (handleSort f) st)).
    rewrite IH, handleSort_same, Nat.even_succ, <- Nat.negb_even.
    f_equal. destruct (decide (sortField st = f)), (Nat.even n),
      (sortDirection st); done.
Qed.

(** X8: [getSortIcon f] shows the chevron up exactly when [f] is the active
    column and the direction ascending, the chevron down exactly when [f]
    is active and the direction descending; and in every state reachable by
    clicks exactly one of the two icons the table head renders is active. *)
Theorem getSortIcon_active :
  (forall f st,
     (getSortIcon f st = ActiveChevronUp
      <-> sortField st = f /\ sortDirection st = asc)
     /\ (getSortIcon f st = ActiveChevronDown
      <-> sortField st = f /\ sortDirection st = desc))
  /\ (forall st, reachable st ->
        (getSortIcon Name st <> NeutralChevron
         /\ getSortIcon CreatedAt st = NeutralChevron)
        \/ (getSortIcon Name st = NeutralChevron
         /\ getSortIcon CreatedAt st <> NeutralChevron)).
Proof.
  split.
  - intros f [g d]. unfold getSortIcon. simpl.
    destruct (decide (g ≠ f)) as [Hne|Heq%dec_stable]; simpl.
    + split; (split; [done|by intros [? _]]).
    + destruct d; simpl; (split; split; (done || by intros [_ ?])).
  - intros st Hst%reachable_not_email.
    destruct st as [[] d]; simpl in Hst; try done;
      unfold getSortIcon; simpl; destruct d; simpl; [left|left|right|right];
      (split; done).
Qed.

Lemma getSortIcon_active_witness :
  reachable (click NameHeader initialSortState)
  /\ getSortIcon Name (click NameHeader initialSortState) = ActiveChevronDown
  /\ ((getSortIcon Name (click NameHeader initialSortState) <> NeutralChevron
       /\ getSortIcon CreatedAt (click NameHeader initialSortState)
          = NeutralChevron)
      \/ (getSortIcon Name (click NameHeader initialSortState) = NeutralChevron
       /\ getSortIcon CreatedAt (click NameHeader initialSortState)
          <> NeutralChevron)).
Proof.
  assert (Hr : reachable (click NameHeader initialSortState))
    by (apply reachable_click, reachable_initial).
  split; [exact Hr|].
  destruct getSortIcon_active as [Hicon Hone].
  split.
  - apply (Hicon Name (click NameHeader initialSortState)).
    split; reflexivity.
  - apply (Hone _ Hr).
Defined.

(** ** The token on outgoing requests *)

Lemma truthy_Some_ne (s : string) : s <> "" -> truthy (Some s) = true.
Proof. by destruct s. Qed.

Lemma sentRequest_plain path args w :
  truthy (getItem "authToken" w) = false ->
  sentRequest path args w = plainRequest path args.
Proof. intros Hfalse. unfold sentRequest, requestInterceptor. by rewrite Hfalse. Qed.

Lemma sentRequest_bearer path args w t :
  getItem "authToken" w = Some t -> t <> "" ->
  sentRequest path args w
  = {| url := "http://localhost/api" +:+ path;
       headers := <["Authorization" := "Bearer " +:+ t]> defaultHeaders;
       params := args |}.
Proof.
  intros Ht Hne. unfold sentRequest, requestInterceptor.
  by rewrite Ht, truthy_Some_ne.
Qed.

(** X9: once a session with a non-empty token is opened, the request
    interceptor puts that token, as a bearer token, on the config of every
    request through the instance [api], and leaves the [Accept] header,
    the base URL and the parameters of the call as they were. *)
Theorem request_carries_token (path : string) (args : list (string * string))
    (c : Credential) (w : World) :
  token c <> "" ->
  headers (sentRequest path args (establish c w)) !! "Authorization"
  = Some ("Bearer " +:+ token c)
  /\ headers (sentRequest path args (establish c w)) !! "Accept"
     = Some "application/json"
  /\ url (sentRequest path args (establish c w))
     = "http://localhost/api" +:+ path
  /\ params (sentRequest path args (establish c w)) = args.
Proof.
  intros Hne.
  rewrite (sentRequest_bearer path args _ (token c))
    by (done || apply getItem_establish_token).
  simpl. by repeat split.
Qed.

Lemma request_carries_token_witness :
  "1|abcdef" <> ""
  /\ headers (sentRequest "/users" [("sort_by", "name")]
                (establish {| token := "1|abcdef";
                              owner := {| user_id := 1; user_name := "Ana";
                                          user_email := "ana@test.com" |} |}
                   signedOut)) !! "Authorization"
     = Some "Bearer 1|abcdef".
Proof.
  assert (Hne : "1|abcdef" <> "") by discriminate.
  split; [exact Hne|].
  apply (request_carries_token "/users" [("sort_by", "name")]
           {| token := "1|abcdef";
              owner := {| user_id := 1; user_name := "Ana";
                          user_email := "ana@test.com" |} |}
           signedOut Hne).
Defined.

(** X10: a request made when the store holds no token, or an empty one,
    leaves as [axios.create] configured it, without an [Authorization]
    header; this is so after the session has been closed. *)
Theorem request_without_token (path : string) (args : list (string * string)) :
  (forall w, getItem "authToken" w = None \/ getItem "authToken" w = Some "" ->
     sentRequest path args w = plainRequest path args)
  /\ (forall w, sentRequest path args (invalidate w) = plainRequest path args)
  /\ headers (plainRequest path args) !! "Authorization" = None.
Proof.
  split; [|split; [|done]].
  - intros w [Hw|Hw]; apply sentRequest_plain; by rewrite Hw.
  - intros w. apply sentRequest_plain.
    by rewrite (proj1 (invalidate_absent w)).
Qed.

Lemma request_without_token_witness :
  (getItem "authToken" signedOut = None
   \/ getItem "authToken" signedOut = Some "")
  /\ sentRequest "/auth/logout" [] signedOut = plainRequest "/auth/logout" [].
Proof.
  assert (Hw : getItem "authToken" signedOut = None
               \/ getItem "authToken" signedOut = Some "")
    by (left; reflexivity).
  split; [exact Hw|].
  apply (proj1 (request_without_token "/auth/logout" []) signedOut Hw).
Defined.

(** ** What the interceptor and the pages leave alone *)

(** X11: the response interceptor touches the browser for a rejection with
    status 401 only: an answer, a rejection with any other status and a
    rejection without a response leave store and route as they were; the
    outcome is handed on unchanged in every case. *)
Theorem responseInterceptor_only_401 {D} :
  (forall (r : Outcome D) w, ~ unauthorized r -> responseInterceptor r w = (w, r))
  /\ (forall (data : D) w,
        responseInterceptor (Fulfilled data) w = (w, Fulfilled data))
  /\ (forall c w,
        responseInterceptor (@Rejected D {| response := None; code := c |}) w
        = (w, Rejected {| response := None; code := c |}))
  /\ (forall (r : Outcome D) w, (responseInterceptor r w).2 = r).
Proof.
  split; [|split; [done|split; [done|]]].
  - intros [data|error] w Hr; simpl; [done|].
    rewrite decide_False; [done|]. intros Hstatus. apply Hr. by exists error.
  - intros r w. apply responseInterceptor_outcome.
Qed.

Lemma responseInterceptor_only_401_witness :
  ~ unauthorized
      (@Rejected UsersData
         {| response := Some {| status := 500; data_message := None |};
            code := None |})
  /\ responseInterceptor
       (@Rejected UsersData
          {| response := Some {| status := 500; data_message := None |};
             code := None |}) signedIn
     = (signedIn,
        Rejected {| response := Some {| status := 500; data_message := None |};
                    code := None |}).
Proof.
  assert (Hr : ~ unauthorized
                 (@Rejected UsersData
                    {| response := Some {| status := 500; data_message := None |};
                       code := None |})).
  { intros (error & [= <-] & Hstatus). discriminate. }
  split; [exact Hr|].
  apply (proj1 (responseInterceptor_only_401 (D := UsersData)) _ signedIn Hr).
Defined.

Lemma api_request_cases {D} (server : Server D) path args w :
  api_request server path args w
  = (if decide (unauthorized (server (sentRequest path args w)))
     then navigate "/login" (invalidate w) else w,
     server (sentRequest path args w)).
Proof.
  unfold api_request. destruct (decide _) as [Hr|Hr].
  - by apply responseInterceptor_401.
  - destruct (server _) as [data|error]; simpl; [done|].
    rewrite decide_False; [done|]. intros Hstatus. apply Hr. by exists error.
Qed.

Lemma handleLogin_cases server email password w :
  let r := server (sentRequest "/auth/login"
                     [("email", email); ("password", password)] w) in
  handleLogin server email password w
  = match r with
    | Fulfilled (AuthSuccess user token) =>
        navigate "/users" (establish {| token := token; owner := user |} w)
    | Fulfilled (AuthFailure _) => w
    | Rejected _ =>
        if decide (unauthorized r) then navigate "/login" (invalidate w) else w
    end.
Proof.
  simpl. unfold handleLogin, authAPI_login. rewrite api_request_cases.
  destruct (server _) as [[user token|message]|error]; try done;
    rewrite decide_False; try done; by intros (e & ? & _).
Qed.

Lemma handleRegister_cases server name email password confirmation w :
  let r := server (sentRequest "/auth/register"
                     [("name", name); ("email", email); ("password", password);
                      ("password_confirmation", confirmation)] w) in
  handleRegister server name email password confirmation w
  = match r with
    | Fulfilled (AuthSuccess _ _) => navigate "/user-created" w
    | Fulfilled (AuthFailure _) => w
    | Rejected _ =>
        if decide (unauthorized r) then navigate "/login" (invalidate w) else w
    end.
Proof.
  simpl. unfold handleRegister, authAPI_register. rewrite api_request_cases.
  destruct (server _) as [[user token|message]|error]; try done;
    rewrite decide_False; try done; by intros (e & ? & _).
Qed.

Lemma invalidate_idemp w : invalidate (invalidate w) = invalidate w.
Proof.
  destruct (invalidate_absent w) as [Htoken Huser].
  unfold invalidate at 1.
  rewrite (removeItem_absent "authToken") by done.
  by apply removeItem_absent.
Qed.

Lemma loadUsers_cases server w :
  let r := server (sentRequest "/users"
                     [("sort_by", "name"); ("sort_direction", "asc")] w) in
  loadUsers server w
  = if decide (unauthorized r) then navigate "/login" (invalidate w) else w.
Proof.
  simpl. unfold loadUsers, usersAPI_getUsers. rewrite api_request_cases.
  destruct (decide (unauthorized _)) as [(error & Hr & Hstatus)|Hr].
  - rewrite Hr, decide_True by done.
    change (navigate "/login" (invalidate (navigate "/login" (invalidate w)))
            = navigate "/login" (invalidate w)).
    change (invalidate (navigate "/login" (invalidate w)))
      with (navigate "/login" (invalidate (invalidate w))).
    by rewrite invalidate_idemp.
  - destruct (server _) as [data|error]; [done|].
    rewrite decide_False; [done|]. intros Hstatus. apply Hr. by exists error.
Qed.

(** X12: a login attempt ends in one of three ways: a success stores the
    session and opens the listing; a rejection with 401 removes whatever
    session the store held and opens the login page; anything else (a
    body that reports failure, any other status, no answer at all) leaves
    store and route exactly as they were. *)
Theorem handleLogin_outcomes (server : Server AuthData) (email password : string)
    (w : World) :
  (forall user token,
     server (sentRequest "/auth/login"
               [("email", email); ("password", password)] w)
     = Fulfilled (AuthSuccess user token) ->
     handleLogin server email password w
     = navigate "/users" (establish {| token := token; owner := user |} w))
  /\ (unauthorized (server (sentRequest "/auth/login"
                              [("email", email); ("password", password)] w)) ->
      handleLogin server email password w = navigate "/login" (invalidate w))
  /\ ((forall user token,
         server (sentRequest "/auth/login"
                   [("email", email); ("password", password)] w)
         <> Fulfilled (AuthSuccess user token)) ->
      ~ unauthorized (server (sentRequest "/auth/login"
                                [("email", email); ("password", password)] w)) ->
      handleLogin server email password w = w).
Proof.
  pose proof (handleLogin_cases server email password w) as Hcases.
  simpl in Hcases. rewrite Hcases. clear Hcases.
  split; [|split].
  - by intros user token ->.
  - intros Hr. rewrite decide_True by done.
    by destruct Hr as (error & -> & _).
  - intros Hfail Hr. rewrite decide_False by done.
    destruct (server _) as [[user token|message]|error]; try done.
    by destruct (Hfail user token).
Qed.

Lemma handleLogin_outcomes_witness :
  ((forall user token,
      @Rejected AuthData
        {| response := Some {| status := 500; data_message := None |};
           code := None |}
      <> Fulfilled (AuthSuccess user token))
   /\ ~ unauthorized
        (@Rejected AuthData
           {| response := Some {| status := 500; data_message := None |};
              code := None |}))
  /\ handleLogin
       (fun _ => Rejected
                   {| response := Some {| status := 500; data_message := None |};
                      code := None |})
       "admin@test.com" "123456" signedIn
     = signedIn.
Proof.
  assert (Hfail : forall user token,
             @Rejected AuthData
               {| response := Some {| status := 500; data_message := None |};
                  code := None |}
             <> Fulfilled (AuthSuccess user token)) by discriminate.
  assert (Hr : ~ unauthorized
                 (@Rejected AuthData
                    {| response := Some {| status := 500; data_message := None |};
                       code := None |})).
  { intros (error & [= <-] & Hstatus). discriminate. }
  split; [split; [exact Hfail|exact Hr]|].
  apply (handleLogin_outcomes
           (fun _ => Rejected
                       {| response := Some {| status := 500;
                                              data_message := None |};
                          code := None |})
           "admin@test.com" "123456" signedIn); [exact Hfail|exact Hr].
Defined.

(** X13: registering never signs the user in: whatever the server
    answers, [handleRegister] leaves the browser as it was, or as it was
    but on the confirmation page, or (after a 401) without session on the
    login page; in no case does the store gain a token. *)
Theorem handleRegister_stores_nothing (server : Server AuthData)
    (name email password confirmation : string) (w : World) :
  (handleRegister server name email password confirmation w = w
   \/ handleRegister server name email password confirmation w
      = navigate "/user-created" w
   \/ handleRegister server name email password confirmation w
      = navigate "/login" (invalidate w))
  /\ (getItem "authToken" w = None ->
      getItem "authToken"
        (handleRegister server name email password confirmation w) = None).
Proof.
  pose proof (handleRegister_cases server name email password confirmation w)
    as Hcases.
  simpl in Hcases. rewrite Hcases. clear Hcases.
  destruct (server _) as [[user token|message]|error]; simpl.
  - split; [by right; left|done].
  - split; [by left|done].
  - destruct (decide _).
    + split; [by right; right|]. intros _.
      apply (proj1 (invalidate_absent w)).
    + split; [by left|done].
Qed.

Lemma handleRegister_stores_nothing_witness :
  getItem "authToken" signedOut = None
  /\ getItem "authToken"
       (handleRegister
          (fun _ => Fulfilled
                      (AuthSuccess {| user_id := 7; user_name := "Ana";
                                      user_email := "ana@test.com" |}
                                   "7|xyz"))
          "Ana" "ana@test.com" "secret1" "secret1" signedOut) = None.
Proof.
  assert (Hw : getItem "authToken" signedOut = None) by reflexivity.
  split; [exact Hw|].
  apply (handleRegister_stores_nothing
           (fun _ => Fulfilled
                       (AuthSuccess {| user_id := 7; user_name := "Ana";
                                       user_email := "ana@test.com" |}
                                    "7|xyz"))
           "Ana" "ana@test.com" "secret1" "secret1" signedOut).
  exact Hw.
Defined.

(** ** The two keys go together *)

Lemma paired_navigate path w : paired (navigate path w) <-> paired w.
Proof. done. Qed.

Lemma paired_establish c w : paired (establish c w).
Proof.
  unfold paired. rewrite getItem_establish_token.
  unfold establish. rewrite getItem_setItem. split; eauto.
Qed.

Lemma paired_invalidate w : paired (invalidate w).
Proof.
  unfold paired. destruct (invalidate_absent w) as [-> ->]. done.
Qed.

Lemma UsersPage_mount_cases server w :
  UsersPage_mount server w = loadUsers server w
  \/ UsersPage_mount server w = navigate "/login" w.
Proof. unfold UsersPage_mount. destruct (truthy _); eauto. Qed.

(** X14: the pages keep the two keys of the session together: if the store
    holds both or neither before a login, a registration, the loading of
    the listing, the opening of the users page or a logout, it holds both
    or neither afterwards, whatever the server answers. *)
Theorem session_keys_paired (w : World) :
  paired w ->
  (forall server email password, paired (handleLogin server email password w))
  /\ (forall server name email password confirmation,
        paired (handleRegister server name email password confirmation w))
  /\ (forall server, paired (loadUsers server w))
  /\ (forall server, paired (UsersPage_mount server w))
  /\ (forall server, paired (handleLogout server w)).
Proof.
  intros Hw.
  assert (Hload : forall server, paired (loadUsers server w)).
  { intros server. pose proof (loadUsers_cases server w) as Hcases.
    simpl in Hcases. rewrite Hcases. destruct (decide _); [|done].
    apply paired_navigate, paired_invalidate. }
  split; [|split; [|split; [|split]]].
  - intros server email password.
    pose proof (handleLogin_cases server email password w) as Hcases.
    simpl in Hcases. rewrite Hcases.
    destruct (server _) as [[user token|message]|error]; try done.
    + apply paired_navigate, paired_establish.
    + destruct (decide _); [|done].
      apply paired_navigate, paired_invalidate.
  - intros server name email password confirmation.
    pose proof (handleRegister_cases server name email password
                  confirmation w) as Hcases.
    simpl in Hcases. rewrite Hcases.
    destruct (server _) as [[user token|message]|error]; try done.
    destruct (decide _); [|done].
    apply paired_navigate, paired_invalidate.
  - exact Hload.
  - intros server.
    destruct (UsersPage_mount_cases server w) as [-> | ->]; [apply Hload|done].
  - intros server. rewrite handleLogout_invalidate.
    apply paired_navigate, paired_invalidate.
Qed.

Lemma session_keys_paired_witness :
  paired signedIn
  /\ paired (handleLogin (fun _ => Rejected expired) "a@b.c" "123456" signedIn).
Proof.
  assert (Hw : paired signedIn).
  { unfold paired. split; intros _; eexists; reflexivity. }
  split; [exact Hw|].
  apply (proj1 (session_keys_paired signedIn Hw)).
Defined.

(** ** Opening the users page *)

Lemma loadUsers_state_world server w :
  (loadUsers_state server w).1 = loadUsers server w.
Proof.
  unfold loadUsers_state, loadUsers.
  by destruct (usersAPI_getUsers server "name" "asc" w) as [w' [[us|m]|error]].
Qed.

Lemma UsersPage_mount_state_world server w :
  (UsersPage_mount_state server w).1 = UsersPage_mount server w.
Proof.
  unfold UsersPage_mount_state, UsersPage_mount.
  destruct (truthy _); [apply loadUsers_state_world|done].
Qed.

(** X15: opened without a token in the store (none, or an empty one), the
    users page asks the server nothing: it goes to the login page, leaves
    the store alone and stays in its loading state; so after a logout,
    opening the users page changes nothing at all. *)
Theorem UsersPage_guard :
  (forall server w,
     getItem "authToken" w = None \/ getItem "authToken" w = Some "" ->
     UsersPage_mount_state server w = (navigate "/login" w, initialUsersPage)
     /\ UsersPage_mount server w = navigate "/login" w)
  /\ (forall server server' w,
        UsersPage_mount server' (handleLogout server w)
        = handleLogout server w).
Proof.
  split.
  - intros server w Hw. unfold UsersPage_mount_state, UsersPage_mount.
    by destruct Hw as [-> | ->].
  - intros server server' w. rewrite handleLogout_invalidate.
    unfold UsersPage_mount.
    change (getItem "authToken" (navigate "/login" ?x))
      with (getItem "authToken" x).
    by rewrite (proj1 (invalidate_absent _)).
Qed.

Lemma UsersPage_guard_witness :
  (getItem "authToken" signedOut = None
   \/ getItem "authToken" signedOut = Some "")
  /\ UsersPage_mount (fun _ => Fulfilled (UsersSuccess listing)) signedOut
     = navigate "/login" signedOut.
Proof.
  assert (Hw : getItem "authToken" signedOut = None
               \/ getItem "authToken" signedOut = Some "")
    by (left; reflexivity).
  split; [exact Hw|].
  apply (proj1 UsersPage_guard
           (fun _ => Fulfilled (UsersSuccess listing)) signedOut Hw).
Defined.

(** X16: after a login that succeeded with a non-empty token, the users
    page does load the listing, and its request carries the new token;
    had the server sent an empty token, both keys would be stored and the
    users page would still turn the user away. *)
Theorem login_then_listing (server : Server AuthData) (email password : string)
    (w : World) (user : Identity) (token : string) :
  server (sentRequest "/auth/login"
            [("email", email); ("password", password)] w)
  = Fulfilled (AuthSuccess user token) ->
  (token <> "" ->
   forall server',
     UsersPage_mount_state server' (handleLogin server email password w)
     = loadUsers_state server' (handleLogin server email password w)
     /\ headers (sentRequest "/users"
                   [("sort_by", "name"); ("sort_direction", "asc")]
                   (handleLogin server email password w)) !! "Authorization"
        = Some ("Bearer " +:+ token))
  /\ (token = "" ->
      forall server',
        UsersPage_mount server' (handleLogin server email password w)
        = navigate "/login" (handleLogin server email password w)).
Proof.
  intros Hanswer. rewrite (handleLogin_establish _ _ _ _ _ _ Hanswer).
  assert (Htoken : getItem "authToken"
                     (navigate "/users"
                        (establish {| token := token; owner := user |} w))
                   = Some token) by apply getItem_establish_token.
  split.
  - intros Hne server'. split.
    + unfold UsersPage_mount_state. by rewrite Htoken, truthy_Some_ne.
    + by rewrite (sentRequest_bearer _ _ _ token).
  - intros -> server'. unfold UsersPage_mount. by rewrite Htoken.
Qed.

Lemma login_then_listing_witness :
  "1|abcdef" <> ""
  /\ UsersPage_mount_state (fun _ => Fulfilled (UsersSuccess listing))
       (handleLogin
          (fun _ => Fulfilled
                      (AuthSuccess {| user_id := 1; user_name := "Ana";
                                      user_email := "ana@test.com" |}
                                   "1|abcdef"))
          "ana@test.com" "secret1" signedOut)
     = loadUsers_state (fun _ => Fulfilled (UsersSuccess listing))
         (handleLogin
            (fun _ => Fulfilled
                        (AuthSuccess {| user_id := 1; user_name := "Ana";
                                        user_email := "ana@test.com" |}
                                     "1|abcdef"))
            "ana@test.com" "secret1" signedOut).
Proof.
  assert (Hne : "1|abcdef" <> "") by discriminate.
  split; [exact Hne|].
  apply (login_then_listing
           (fun _ => Fulfilled
                       (AuthSuccess {| user_id := 1; user_name := "Ana";
                                       user_email := "ana@test.com" |}
                                    "1|abcdef"))
           "ana@test.com" "secret1" signedOut
           {| user_id := 1; user_name := "Ana"; user_email := "ana@test.com" |}
           "1|abcdef" eq_refl); exact Hne.
Defined.

(** ** What the table shows *)

Lemma reachable_WellFormed `{Host} st users :
  reachable st -> WellFormed Name users -> WellFormed CreatedAt users ->
  WellFormed (sortField st) users.
Proof.
  intros Hst%reachable_not_email Hname Hdate.
  by destruct (sortField st).
Qed.

(** X17: for the empty listing the table shows the spinner while loading
    and the "no users" panel otherwise, and never throws; for a listing
    whose names are strings and whose creation dates parse (or are [null])
    it never throws in any state reachable by clicks, whatever the e-mail
    column holds, and shows the spinner while loading and otherwise a
    table with one row per record, the rows being the listing
    rearranged. *)
Theorem UserTable_views `{Host} :
  (forall st,
     UserTable [] true st = Normal SpinnerView
     /\ UserTable [] false st = Normal (NoUsersView 0))
  /\ (forall users st,
        reachable st -> WellFormed Name users -> WellFormed CreatedAt users ->
        users <> [] ->
        UserTable users true st = Normal SpinnerView
        /\ exists rows,
             UserTable users false st
             = Normal (TableView (length users) (getSortIcon Name st)
                         (getSortIcon CreatedAt st) rows)
             /\ Permutation users rows
             /\ length rows = length users).
Proof.
  split; [done|].
  intros users st Hst Hname Hdate Hne.
  pose proof (reachable_WellFormed st users Hst Hname Hdate) as Hwf.
  destruct (sortedUsers_contract users st Hwf) as (rows & Hrows & [Hp _ _] & _).
  unfold UserTable. rewrite Hrows. simpl. split; [done|].
  exists rows. destruct users; [done|]. by rewrite Hp.
Qed.

Lemma UserTable_views_witness :
  reachable (click CreatedAtHeader initialSortState)
  /\ WellFormed (H := isoHost) Name listing
  /\ WellFormed (H := isoHost) CreatedAt listing
  /\ listing <> []
  /\ UserTable (H := isoHost) listing true
       (click CreatedAtHeader initialSortState) = Normal SpinnerView
  /\ exists rows,
       UserTable (H := isoHost) listing false
         (click CreatedAtHeader initialSortState)
       = Normal (TableView (length listing)
                   (getSortIcon Name (click CreatedAtHeader initialSortState))
                   (getSortIcon CreatedAt
                      (click CreatedAtHeader initialSortState)) rows)
       /\ Permutation listing rows
       /\ length rows = length listing.
Proof.
  assert (Hst : reachable (click CreatedAtHeader initialSortState))
    by (apply reachable_click, reachable_initial).
  assert (Hname : WellFormed (H := isoHost) Name listing).
  { unfold WellFormed, listing. repeat constructor; eexists; reflexivity. }
  assert (Hdate : WellFormed (H := isoHost) CreatedAt listing).
  { unfold WellFormed, listing. repeat constructor; eexists; reflexivity. }
  assert (Hne : listing <> []) by discriminate.
  split; [exact Hst|]. split; [exact Hname|]. split; [exact Hdate|].
  split; [exact Hne|].
  apply (proj2 (UserTable_views (H := isoHost)) listing _ Hst Hname Hdate Hne).
Defined.

(** X18: when [loadUsers] is over the page is no longer loading; unless the
    server answered with a successful body the page holds the empty
    listing, so a failed request shows as the "no users" panel, the same
    as a server without users; a successful body is taken over as it
    is. *)
Theorem loadUsers_leaves_listing `{Host} (server : Server UsersData) (w : World) :
  loading (loadUsers_state server w).2 = false
  /\ (forall us,
        server (sentRequest "/users"
                  [("sort_by", "name"); ("sort_direction", "asc")] w)
        = Fulfilled (UsersSuccess us) ->
        users (loadUsers_state server w).2 = us)
  /\ ((forall us,
         server (sentRequest "/users"
                   [("sort_by", "name"); ("sort_direction", "asc")] w)
         <> Fulfilled (UsersSuccess us)) ->
      users (loadUsers_state server w).2 = []
      /\ forall st,
           UsersPage_view (loadUsers_state server w).2 st
           = Normal (NoUsersView 0)).
Proof.
  unfold loadUsers_state, usersAPI_getUsers. rewrite api_request_cases.
  destruct (server _) as [[us|m]|error]; simpl.
  - split; [done|]. split; [by intros ? [= <-]|].
    intros Hfail. by destruct (Hfail us).
  - by repeat split.
  - by repeat split.
Qed.

Lemma loadUsers_leaves_listing_witness :
  (forall us, @Rejected UsersData expired <> Fulfilled (UsersSuccess us))
  /\ users (loadUsers_state (fun _ => Rejected expired) signedIn).2 = []
  /\ forall st,
       UsersPage_view (H := isoHost)
         (loadUsers_state (fun _ => Rejected expired) signedIn).2 st
       = Normal (NoUsersView 0).
Proof.
  assert (Hfail : forall us,
             @Rejected UsersData expired <> Fulfilled (UsersSuccess us))
    by discriminate.
  split; [exact Hfail|].
  apply (loadUsers_leaves_listing (H := isoHost)
           (fun _ => Rejected expired) signedIn).
  exact Hfail.
Defined.

(** ** The theme *)

(** X19: the theme written to the store by the persisting effect is the
    theme the loading effect finds on the next start, whatever the system
    prefers; without a saved value (or with an empty one) the preference of
    the system decides; a saved value other than "dark" means light; and
    toggling twice gives the theme back. *)
Theorem theme_round_trip :
  (forall isDark prefersDark w,
     loadTheme prefersDark (persistTheme isDark w) = isDark)
  /\ (forall prefersDark w,
        getItem "catware-theme" w = None
        \/ getItem "catware-theme" w = Some "" ->
        loadTheme prefersDark w = prefersDark)
  /\ (forall saved prefersDark w,
        getItem "catware-theme" w = Some saved ->
        saved <> "" -> saved <> "dark" ->
        loadTheme prefersDark w = false)
  /\ (forall isDark, toggleTheme (toggleTheme isDark) = isDark).
Proof.
  split; [|split; [|split]].
  - intros isDark prefersDark w. unfold loadTheme, persistTheme.
    rewrite getItem_setItem. by destruct isDark.
  - intros prefersDark w Hw. unfold loadTheme. by destruct Hw as [-> | ->].
  - intros saved prefersDark w Hw Hne Hdark. unfold loadTheme.
    rewrite Hw, truthy_Some_ne by done.
    apply bool_decide_eq_false. congruence.
  - by intros [].
Qed.

Lemma theme_round_trip_witness :
  (getItem "catware-theme" signedIn = None
   \/ getItem "catware-theme" signedIn = Some "")
  /\ loadTheme true signedIn = true
  /\ getItem "catware-theme" (setItem "catware-theme" "blue" signedIn)
     = Some "blue"
  /\ "blue" <> "" /\ "blue" <> "dark"
  /\ loadTheme true (setItem "catware-theme" "blue" signedIn) = false.
Proof.
  destruct theme_round_trip as (_ & Hnone & Hother & _).
  assert (Hw : getItem "catware-theme" signedIn = None
               \/ getItem "catware-theme" signedIn = Some "")
    by (left; reflexivity).
  split; [exact Hw|]. split; [apply (Hnone true signedIn Hw)|].
  split; [reflexivity|]. split; [discriminate|]. split; [discriminate|].
  apply (Hother "blue" true (setItem "catware-theme" "blue" signedIn));
    [reflexivity|discriminate|discriminate].
Defined.

Lemma handleLogout_world server w :
  handleLogout server w = navigate "/login" (invalidate w).
Proof.
  rewrite handleLogout_invalidate. unfold authAPI_logout.
  rewrite api_request_cases. simpl.
  destruct (decide _); [|done].
  change (invalidate (navigate "/login" (invalidate w)))
    with (navigate "/login" (invalidate (invalidate w))).
  by rewrite invalidate_idemp.
Qed.

(** X20: what a logout leaves behind does not depend on the server: it is
    the browser without the two keys, on the login page, everything else
    in the store untouched; and a second logout changes nothing. *)
Theorem handleLogout_local :
  (forall server w, handleLogout server w = navigate "/login" (invalidate w))
  /\ (forall server server' w, handleLogout server w = handleLogout server' w)
  /\ (forall server server' w,
        handleLogout server' (handleLogout server w) = handleLogout server w)
  /\ (forall server w key,
        key <> "authToken" -> key <> "user" ->
        getItem key (handleLogout server w) = getItem key w).
Proof.
  split; [|split; [|split]].
  - apply handleLogout_world.
  - intros server server' w. by rewrite !handleLogout_world.
  - intros server server' w. rewrite !handleLogout_world.
    change (invalidate (navigate "/login" (invalidate w)))
      with (navigate "/login" (invalidate (invalidate w))).
    by rewrite invalidate_idemp.
  - intros server w key Htoken Huser. rewrite handleLogout_world.
    unfold invalidate.
    change (getItem key (navigate "/login" ?x)) with (getItem key x).
    by rewrite !getItem_removeItem_ne.
Qed.

Lemma handleLogout_local_witness :
  "catware-theme" <> "authToken" /\ "catware-theme" <> "user"
  /\ getItem "catware-theme"
       (handleLogout (fun _ => Rejected expired)
          (persistTheme true signedIn))
     = getItem "catware-theme" (persistTheme true signedIn).
Proof.
  split; [discriminate|]. split; [discriminate|].
  apply (proj2 (proj2 (proj2 handleLogout_local))); discriminate.
Defined.

Lemma getItem_theme_invalidate w :
  getItem "catware-theme" (invalidate w) = getItem "catware-theme" w.
Proof. unfold invalidate. by rewrite !getItem_removeItem_ne. Qed.

Lemma getItem_theme_after_401 w :
  getItem "catware-theme" (navigate "/login" (invalidate w))
  = getItem "catware-theme" w.
Proof. apply getItem_theme_invalidate. Qed.

(** X21: theme and session do not touch each other: persisting the theme
    changes neither of the two session keys nor the route, and a login, a
    registration, the loading of the listing and a logout leave the saved
    theme as it is, whatever the server answers. *)
Theorem theme_and_session_apart (w : World) :
  (forall isDark,
     getItem "authToken" (persistTheme isDark w) = getItem "authToken" w
     /\ getItem "user" (persistTheme isDark w) = getItem "user" w
     /\ location (persistTheme isDark w) = location w)
  /\ (forall server email password,
        getItem "catware-theme" (handleLogin server email password w)
        = getItem "catware-theme" w)
  /\ (forall server name email password confirmation,
        getItem "catware-theme"
          (handleRegister server name email password confirmation w)
        = getItem "catware-theme" w)
  /\ (forall server,
        getItem "catware-theme" (loadUsers server w)
        = getItem "catware-theme" w)
  /\ (forall server,
        getItem "catware-theme" (handleLogout server w)
        = getItem "catware-theme" w).
Proof.
  split; [|split; [|split; [|split]]].
  - intros isDark. unfold persistTheme.
    by rewrite !getItem_setItem_ne.
  - intros server email password.
    pose proof (handleLogin_cases server email password w) as Hcases.
    simpl in Hcases. rewrite Hcases.
    destruct (server _) as [[user token|message]|error]; try done.
    + unfold establish.
      change (getItem "catware-theme" (navigate "/users" ?x))
        with (getItem "catware-theme" x).
      by rewrite !getItem_setItem_ne.
    + destruct (decide _); [apply getItem_theme_after_401|done].
  - intros server name email password confirmation.
    pose proof (handleRegister_cases server name email password
                  confirmation w) as Hcases.
    simpl in Hcases. rewrite Hcases.
    destruct (server _) as [[user token|message]|error]; try done.
    destruct (decide _); [apply getItem_theme_after_401|done].
  - intros server. pose proof (loadUsers_cases server w) as Hcases.
    simpl in Hcases. rewrite Hcases.
    destruct (decide _); [apply getItem_theme_after_401|done].
  - intros server. rewrite handleLogout_world.
    apply getItem_theme_after_401.
Qed.

(** ** The countdown of the confirmation page *)

(** X22: a countdown started at [n >= 1] shows [n - k] after [k < n]
    firings of the interval and has not left the page; at the [n]-th firing
    it shows 0, clears the interval and goes to the login page, and later
    firings change nothing; the page starts it at 10. *)
Theorem countdown_runs (n : Z) (k : nat) (w : World) :
  1 <= n ->
  Nat.iter k tick ({| countdown := n; ticking := true |}, w)
  = (if Z.of_nat k <? n
     then ({| countdown := n - Z.of_nat k; ticking := true |}, w)
     else ({| countdown := 0; ticking := false |}, navigate "/login" w))
  /\ countdown initialCountdown = 10 /\ ticking initialCountdown = true.
Proof.
  intros Hn. split; [|done].
  induction k as [|k IH].
  - change (Z.of_nat 0) with 0. simpl.
    destruct (Z.ltb_spec 0 n); [|lia]. by rewrite Z.sub_0_r.
  - change (Nat.iter (S k) tick ?s) with (tick (Nat.iter k tick s)).
    rewrite IH. clear IH.
    destruct (Z.ltb_spec (Z.of_nat k) n), (Z.ltb_spec (Z.of_nat (S k)) n);
      try lia; unfold tick; simpl.
    + destruct (Z.leb_spec (n - Z.of_nat k) 1); [lia|].
      do 2 f_equal. lia.
    + destruct (Z.leb_spec (n - Z.of_nat k) 1); [done|lia].
    + done.
Qed.

Lemma countdown_runs_witness :
  1 <= 10
  /\ Nat.iter 10 tick (initialCountdown, signedOut)
     = ({| countdown := 0; ticking := false |}, navigate "/login" signedOut).
Proof.
  assert (Hn : 1 <= 10) by lia.
  split; [exact Hn|].
  apply (proj1 (countdown_runs 10 10 signedOut Hn)).
Defined.

(** ** Strings and the words of a pattern *)

Lemma app_eq_empty (s1 s2 : string) : s1 +:+ s2 = "" -> s1 = "" /\ s2 = "".
Proof. destruct s1; [done|]. by rewrite app_cons. Qed.

Lemma length_app_string (s1 s2 : string) :
  String.length (s1 +:+ s2) = (String.length s1 + String.length s2)%nat.
Proof.
  induction s1 as [|c s1 IH]; [done|]. rewrite app_cons. simpl. by rewrite IH.
Qed.

Lemma allChars_app p (s1 s2 : string) :
  allChars p (s1 +:+ s2) = allChars p s1 && allChars p s2.
Proof.
  induction s1 as [|c s1 IH]; [done|].
  rewrite app_cons. simpl. by rewrite IH, andb_assoc.
Qed.

Lemma occurrences_app c (s1 s2 : string) :
  occurrences c (s1 +:+ s2) = (occurrences c s1 + occurrences c s2)%nat.
Proof.
  induction s1 as [|c' s1 IH]; [done|].
  rewrite app_cons. simpl. rewrite IH. lia.
Qed.

Lemma allChars_impl (p q : ascii -> bool) s :
  (forall c, p c = true -> q c = true) ->
  allChars p s = true -> allChars q s = true.
Proof.
  intros Hpq. induction s as [|c s IH]; simpl; [done|].
  intros [Hc Hs]%andb_true_iff. rewrite (Hpq c Hc). by apply IH.
Qed.

Lemma allChars_occurrences p c s :
  p c = false -> allChars p s = true -> occurrences c s = 0%nat.
Proof.
  intros Hc. induction s as [|c' s IH]; simpl; [done|].
  intros [Hc' Hs]%andb_true_iff. rewrite (IH Hs).
  destruct (Ascii.eqb_spec c c') as [<-|_]; [congruence|done].
Qed.

Section PatternWords.
Import RegExp.

Lemma Lang_inv r s :
  Lang r s ->
  match r with
  | Never => False
  | Epsilon => s = ""
  | Chars p => exists c, s = String c "" /\ p c = true
  | Seq r1 r2 => exists s1 s2, s = s1 +:+ s2 /\ Lang r1 s1 /\ Lang r2 s2
  | Alt r1 r2 => Lang r1 s \/ Lang r2 s
  | Star r1 =>
      s = "" \/ exists s1 s2, s = s1 +:+ s2 /\ Lang r1 s1 /\ Lang (Star r1) s2
  end.
Proof. destruct 1; eauto 10. Qed.

Lemma Lang_empty_word r : Lang r "" <-> nullable r = true.
Proof.
  split.
  - revert r. assert (forall r s, Lang r s -> s = "" -> nullable r = true) as Hgen.
    { induction 1 as [|p c Hc|r1 r2 s1 s2 _ IH1 _ IH2|r1 r2 s _ IH|r1 r2 s _ IH
                     |r|r s1 s2 _ _ _ _]; simpl; try done.
      - intros [-> ->]%app_eq_empty. by rewrite IH1, IH2.
      - intros Hs. by rewrite IH.
      - intros Hs. rewrite IH by done. apply orb_true_r. }
    intros r Hr. by apply (Hgen r "").
  - induction r as [| |p|r1 IH1 r2 IH2|r1 IH1 r2 IH2|r IH]; simpl; try done.
    + intros _. constructor.
    + intros [H1 H2]%andb_true_iff.
      apply (Lang_Seq r1 r2 "" ""); auto.
    + intros [H1|H2]%orb_true_iff; [apply Lang_Alt_l|apply Lang_Alt_r]; auto.
    + intros _. constructor.
Qed.

Lemma Lang_Star_step r c s :
  Lang (Star r) (String c s) ->
  exists s1 s2, s = s1 +:+ s2 /\ Lang r (String c s1) /\ Lang (Star r) s2.
Proof.
  assert (forall r' s', Lang r' s' -> r' = Star r -> s' = String c s ->
            exists s1 s2, s = s1 +:+ s2 /\ Lang r (String c s1)
                          /\ Lang (Star r) s2) as Hgen.
  { induction 1 as [| | | | |r0|r0 s1 s2 H1 _ H2 IH2]; try done.
    intros [= ->] Hs'. destruct s1 as [|c1 s1].
    - rewrite app_empty_l in Hs'. by apply IH2.
    - rewrite app_cons in Hs'. injection Hs' as -> <-. by exists s1, s2. }
  intros Hr. by apply (Hgen (Star r) (String c s)).
Qed.

Lemma Lang_Seq_derive c r1 r2 s :
  (forall s, Lang (derive c r1) s <-> Lang r1 (String c s)) ->
  Lang (Seq (derive c r1) r2) s
  <-> exists s1 s2, s = s1 +:+ s2 /\ Lang r1 (String c s1) /\ Lang r2 s2.
Proof.
  intros IH1. split.
  - intros (s1 & s2 & -> & H1 & H2)%Lang_inv.
    exists s1, s2. split; [done|]. split; [by apply IH1|done].
  - intros (s1 & s2 & -> & H1 & H2). constructor; [by apply IH1|done].
Qed.

Lemma Lang_Seq_cons c r1 r2 s :
  Lang (Seq r1 r2) (String c s)
  <-> (exists s1 s2, s = s1 +:+ s2 /\ Lang r1 (String c s1) /\ Lang r2 s2)
      \/ (Lang r1 "" /\ Lang r2 (String c s)).
Proof.
  split.
  - intros (s1 & s2 & Heq & H1 & H2)%Lang_inv.
    destruct s1 as [|c1 s1].
    + right. rewrite app_empty_l in Heq. by subst.
    + left. rewrite app_cons in Heq. injection Heq as -> ->.
      by exists s1, s2.
  - intros [(s1 & s2 & -> & H1 & H2)|[H1 H2]].
    + by apply (Lang_Seq r1 r2 (String c s1) s2).
    + by apply (Lang_Seq r1 r2 "" (String c s)).
Qed.

Lemma Lang_derive c r s : Lang (derive c r) s <-> Lang r (String c s).
Proof.
  revert s. induction r as [| |p|r1 IH1 r2 IH2|r1 IH1 r2 IH2|r IH];
    intros s; simpl.
  - split; intros []%Lang_inv.
  - split; [intros []%Lang_inv|intros [=]%Lang_inv].
  - destruct (p c) eqn:Hc.
    + split.
      * intros ->%Lang_inv. by constructor.
      * intros (c' & [= -> ->] & _)%Lang_inv. constructor.
    + split; [intros []%Lang_inv|].
      intros (c' & [= -> ->] & Hc')%Lang_inv. congruence.
  - rewrite Lang_Seq_cons. destruct (nullable r1) eqn:Hnull.
    + split.
      * intros [Hl|Hr]%Lang_inv.
        -- left. by apply Lang_Seq_derive.
        -- right. split; [by apply Lang_empty_word|by apply IH2].
      * intros [Hl|[_ Hr]].
        -- apply Lang_Alt_l. by apply Lang_Seq_derive.
        -- apply Lang_Alt_r. by apply IH2.
    + rewrite (Lang_Seq_derive c r1 r2 s IH1). split; [by left|].
      intros [Hl|[Hr _]]; [done|].
      apply Lang_empty_word in Hr. congruence.
  - split.
    + intros [H|H]%Lang_inv; [apply Lang_Alt_l; by apply IH1|].
      apply Lang_Alt_r; by apply IH2.
    + intros [H|H]%Lang_inv; [apply Lang_Alt_l; by apply IH1|].
      apply Lang_Alt_r; by apply IH2.
  - split.
    + intros (s1 & s2 & -> & H1 & H2)%Lang_inv.
      apply (Lang_Star_cons r (String c s1) s2); [by apply IH|done].
    + intros (s1 & s2 & -> & H1 & H2)%Lang_Star_step.
      constructor; [by apply IH|done].
Qed.

Lemma matches_Lang r s : matches r s = true <-> Lang r s.
Proof.
  revert r. induction s as [|c s IH]; intros r; simpl.
  - symmetry. apply Lang_empty_word.
  - by rewrite IH, Lang_derive.
Qed.

Lemma Lang_Star_Chars p s : Lang (Star (Chars p)) s <-> allChars p s = true.
Proof.
  split.
  - assert (forall r s, Lang r s -> r = Star (Chars p) -> allChars p s = true)
      as Hgen.
    { induction 1 as [| | | | |r0|r0 s1 s2 H1 _ H2 IH2]; try done.
      intros [= ->]. apply Lang_inv in H1 as (c & -> & Hc).
      rewrite app_cons, app_empty_l. simpl. by rewrite Hc, IH2. }
    intros Hs. by apply (Hgen (Star (Chars p)) s).
  - induction s as [|c s IH]; simpl; [constructor|].
    intros [Hc Hs]%andb_true_iff.
    apply (Lang_Star_cons (Chars p) (String c "") s); [by constructor|auto].
Qed.

Lemma Lang_Plus_Chars p s :
  Lang (Plus (Chars p)) s <-> s <> "" /\ allChars p s = true.
Proof.
  unfold Plus. split.
  - intros (s1 & s2 & -> & (c & -> & Hc)%Lang_inv & H2)%Lang_inv.
    rewrite app_cons, app_empty_l. simpl. split; [done|].
    apply Lang_Star_Chars in H2. by rewrite Hc, H2.
  - intros [Hne Hs]. destruct s as [|c s]; [done|]. simpl in Hs.
    apply andb_true_iff in Hs as [Hc Hs].
    apply (Lang_Seq (Chars p) (Star (Chars p)) (String c "") s);
      [by constructor|by apply Lang_Star_Chars].
Qed.

Lemma Lang_Lit c s : Lang (Lit c) s <-> s = String c "".
Proof.
  unfold Lit. split.
  - intros (c' & -> & Hc)%Lang_inv.
    by apply Ascii.eqb_eq in Hc as ->.
  - intros ->. constructor. apply Ascii.eqb_refl.
Qed.

Lemma Lang_anything s : Lang (Star anyChar) s.
Proof. apply Lang_Star_Chars. by induction s. Qed.

(** The pattern both forms use, over the class of characters [p]:
    [p+@p+\.p+]. *)
Lemma Lang_address p s :
  Lang (Seq (Plus (Chars p))
          (Seq (Lit "@")
             (Seq (Plus (Chars p)) (Seq (Lit ".") (Plus (Chars p)))))) s
  <-> exists l d t,
        s = l +:+ "@" +:+ d +:+ "." +:+ t
        /\ (l <> "" /\ allChars p l = true)
        /\ (d <> "" /\ allChars p d = true)
        /\ (t <> "" /\ allChars p t = true).
Proof.
  split.
  - intros (l & s1 & -> & Hl & H1)%Lang_inv.
    apply Lang_inv in H1 as (a & s2 & -> & Ha & H2).
    apply Lang_inv in H2 as (d & s3 & -> & Hd & H3).
    apply Lang_inv in H3 as (b & t & -> & Hb & Ht).
    apply Lang_Lit in Ha as ->. apply Lang_Lit in Hb as ->.
    exists l, d, t. split; [done|].
    by rewrite <- !Lang_Plus_Chars.
  - intros (l & d & t & -> & Hl & Hd & Ht).
    rewrite <- Lang_Plus_Chars in Hl, Hd, Ht.
    repeat (constructor; try done); by apply Lang_Lit.
Qed.

End PatternWords.

(** ** The e-mail patterns of the two forms *)

Lemma test_Lang r s :
  RegExp.test r s = true
  <-> exists pre mid post,
        s = pre +:+ mid +:+ post /\ RegExp.Lang r mid.
Proof.
  unfold RegExp.test. rewrite matches_Lang. split.
  - intros (pre & s1 & -> & _ & H1)%Lang_inv.
    apply Lang_inv in H1 as (mid & post & -> & Hmid & _).
    by exists pre, mid, post.
  - intros (pre & mid & post & -> & Hmid).
    constructor; [apply Lang_anything|].
    constructor; [done|apply Lang_anything].
Qed.

Lemma notSpaceNorAt_notSpace c : notSpaceNorAt c = true -> notSpace c = true.
Proof. unfold notSpaceNorAt, notSpace. by intros [? _]%andb_true_iff. Qed.

Lemma trimStart_id s : allChars notSpace s = true -> trimStart s = s.
Proof.
  destruct s as [|c s]; simpl; [done|].
  unfold notSpace at 1. intros [Hc _]%andb_true_iff.
  by apply negb_true_iff in Hc as ->.
Qed.

Lemma trimEnd_id s : allChars notSpace s = true -> trimEnd s = s.
Proof.
  induction s as [|c s IH]; simpl; [done|].
  unfold notSpace at 1. intros [Hc Hs]%andb_true_iff.
  apply negb_true_iff in Hc. rewrite (IH Hs), Hc. by destruct s.
Qed.

Lemma trim_id s : allChars notSpace s = true -> trim s = s.
Proof.
  intros Hs. unfold trim. rewrite (trimStart_id s Hs). by apply trimEnd_id.
Qed.

(** X23: what the two patterns accept.  The pattern of the login form
    accepts a string that has, somewhere in it, a run of non-blank
    characters, an at sign, another such run, a dot and a third run; the
    pattern of the registration form accepts a string that consists of
    exactly that, its three runs free of blanks and of at signs. *)
Theorem email_patterns (e : string) :
  (RegExp.test LoginForm.emailPattern e = true
   <-> exists pre l d t post,
         e = pre +:+ (l +:+ "@" +:+ d +:+ "." +:+ t) +:+ post
         /\ (l <> "" /\ allChars notSpace l = true)
         /\ (d <> "" /\ allChars notSpace d = true)
         /\ (t <> "" /\ allChars notSpace t = true))
  /\ (RegExp.matches RegisterForm.emailPattern e = true
      <-> exists l d t,
            e = l +:+ "@" +:+ d +:+ "." +:+ t
            /\ (l <> "" /\ allChars notSpaceNorAt l = true)
            /\ (d <> "" /\ allChars notSpaceNorAt d = true)
            /\ (t <> "" /\ allChars notSpaceNorAt t = true)).
Proof.
  split.
  - rewrite test_Lang. unfold LoginForm.emailPattern. split.
    + intros (pre & mid & post & -> & (l & d & t & -> & H)%Lang_address).
      by exists pre, l, d, t, post.
    + intros (pre & l & d & t & post & -> & H).
      exists pre, (l +:+ "@" +:+ d +:+ "." +:+ t), post.
      split; [done|]. apply Lang_address. by exists l, d, t.
  - rewrite matches_Lang. apply Lang_address.
Qed.

Lemma matches_register_shape e :
  RegExp.matches RegisterForm.emailPattern e = true ->
  exists l d t,
    e = l +:+ "@" +:+ d +:+ "." +:+ t
    /\ (l <> "" /\ allChars notSpaceNorAt l = true)
    /\ (d <> "" /\ allChars notSpaceNorAt d = true)
    /\ (t <> "" /\ allChars notSpaceNorAt t = true).
Proof. rewrite matches_Lang. apply Lang_address. Qed.

Lemma registered_without_blank e :
  RegExp.matches RegisterForm.emailPattern e = true ->
  allChars notSpace e = true.
Proof.
  intros (l & d & t & -> & [_ Hl] & [_ Hd] & [_ Ht])%matches_register_shape.
  rewrite !allChars_app.
  rewrite (allChars_impl _ _ l notSpaceNorAt_notSpace Hl).
  rewrite (allChars_impl _ _ d notSpaceNorAt_notSpace Hd).
  by rewrite (allChars_impl _ _ t notSpaceNorAt_notSpace Ht).
Qed.

Lemma length_nonempty (s : string) : s <> "" -> (1 <= String.length s)%nat.
Proof. destruct s; [done|simpl; lia]. Qed.

(** X24: an address the registration form accepts has no blank in it,
    exactly one at sign, at least five characters, is left as it is by
    [trim], and is accepted by the login form as well. *)
Theorem register_address (e : string) :
  RegExp.matches RegisterForm.emailPattern e = true ->
  allChars notSpace e = true
  /\ occurrences "@" e = 1%nat
  /\ (5 <= String.length e)%nat
  /\ trim e = e
  /\ RegExp.test LoginForm.emailPattern e = true.
Proof.
  intros He. pose proof (registered_without_blank e He) as Hspace.
  split; [done|].
  destruct (matches_register_shape e He)
    as (l & d & t & -> & [Hl1 Hl] & [Hd1 Hd] & [Ht1 Ht]).
  split; [|split; [|split]].
  - rewrite !occurrences_app.
    rewrite (allChars_occurrences notSpaceNorAt "@" l) by done.
    rewrite (allChars_occurrences notSpaceNorAt "@" d) by done.
    by rewrite (allChars_occurrences notSpaceNorAt "@" t) by done.
  - rewrite !length_app_string. simpl.
    apply length_nonempty in Hl1, Hd1, Ht1. lia.
  - by apply trim_id.
  - apply test_Lang.
    exists "", (l +:+ "@" +:+ d +:+ "." +:+ t), "".
    split; [by rewrite app_empty_r|].
    apply Lang_address. exists l, d, t.
    split; [done|].
    repeat split; try done; by eapply allChars_impl;
      [apply notSpaceNorAt_notSpace|].
Qed.

Lemma register_address_witness :
  RegExp.matches RegisterForm.emailPattern "juan.perez@ejemplo.com" = true
  /\ occurrences "@" "juan.perez@ejemplo.com" = 1%nat
  /\ RegExp.test LoginForm.emailPattern "juan.perez@ejemplo.com" = true.
Proof.
  assert (He : RegExp.matches RegisterForm.emailPattern
                 "juan.perez@ejemplo.com" = true) by reflexivity.
  split; [exact He|].
  destruct (register_address "juan.perez@ejemplo.com" He)
    as (_ & Hat & _ & _ & Hlogin).
  split; [exact Hat|exact Hlogin].
Defined.

Lemma email_patterns_witness :
  (exists pre l d t post,
     "x a@b.c y" = pre +:+ (l +:+ "@" +:+ d +:+ "." +:+ t) +:+ post
     /\ (l <> "" /\ allChars notSpace l = true)
     /\ (d <> "" /\ allChars notSpace d = true)
     /\ (t <> "" /\ allChars notSpace t = true))
  /\ RegExp.test LoginForm.emailPattern "x a@b.c y" = true
  /\ RegExp.matches RegisterForm.emailPattern "x a@b.c y" = false.
Proof.
  assert (Hshape : exists pre l d t post,
             "x a@b.c y" = pre +:+ (l +:+ "@" +:+ d +:+ "." +:+ t) +:+ post
             /\ (l <> "" /\ allChars notSpace l = true)
             /\ (d <> "" /\ allChars notSpace d = true)
             /\ (t <> "" /\ allChars notSpace t = true)).
  { exists "x ", "a", "b", "c", " y". repeat split; (reflexivity || discriminate). }
  split; [exact Hshape|]. split; [|reflexivity].
  apply (proj1 (email_patterns "x a@b.c y")). exact Hshape.
Defined.

(** ** Submitting the forms *)

Lemma size_insert_pos (k v : string) (m : gmap string string) :
  (0 <? size (<[k := v]> m))%nat = true.
Proof.
  apply Nat.ltb_lt.
  destruct (size (<[k := v]> m)) eqn:Hsize; [|lia].
  apply map_size_empty_iff in Hsize. by apply insert_non_empty in Hsize.
Qed.

Lemma test_login_empty : RegExp.test LoginForm.emailPattern "" = false.
Proof. reflexivity. Qed.

Lemma LoginForm_validate_empty formData :
  LoginForm.validate formData = ∅
  <-> RegExp.test LoginForm.emailPattern (LoginForm.email formData) = true
      /\ (6 <= String.length (LoginForm.password formData))%nat.
Proof.
  unfold LoginForm.validate.
  destruct formData as [e p]. simpl.
  destruct (String.eqb_spec e "") as [->|He].
  { rewrite test_login_empty. split; [|by intros [? _]].
    repeat case_match; intros Hm; by apply insert_non_empty in Hm. }
  destruct (RegExp.test LoginForm.emailPattern e); simpl.
  - destruct (String.eqb_spec p "") as [->|Hp].
    { split; [intros Hm; by apply insert_non_empty in Hm|].
      simpl. intros [_ ?]. lia. }
    destruct (Nat.ltb_spec (String.length p) 6).
    + split; [intros Hm; by apply insert_non_empty in Hm|]. intros [_ ?]. lia.
    + done.
  - split; [|by intros [? _]].
    repeat case_match; intros Hm; by apply insert_non_empty in Hm.
Qed.

Lemma LoginForm_handleSubmit_cases formData :
  (LoginForm.validate formData = ∅
   /\ LoginForm.handleSubmit formData = (∅, Some formData))
  \/ (LoginForm.validate formData <> ∅
      /\ LoginForm.handleSubmit formData
         = (LoginForm.validate formData, None)).
Proof.
  unfold LoginForm.handleSubmit.
  destruct (decide (LoginForm.validate formData = ∅)) as [Hm|Hm].
  - left. by rewrite Hm.
  - right. split; [done|].
    destruct (size (LoginForm.validate formData)) eqn:Hsize; [|done].
    by apply map_size_empty_iff in Hsize.
Qed.

(** X25: the login form hands its data to [handleLogin] exactly when the
    e-mail passes the pattern and the password has six characters or more;
    it then hands them over as typed, with no field error left; whenever
    one of the two conditions fails it hands over nothing, sets at least
    one field error, and the page asks the server nothing: store and route
    stay as they were. *)
Theorem LoginForm_gate (formData : LoginForm.FormData) :
  (is_Some (LoginForm.handleSubmit formData).2
   <-> RegExp.test LoginForm.emailPattern (LoginForm.email formData) = true
       /\ (6 <= String.length (LoginForm.password formData))%nat)
  /\ (RegExp.test LoginForm.emailPattern (LoginForm.email formData) = true
      /\ (6 <= String.length (LoginForm.password formData))%nat ->
      LoginForm.handleSubmit formData = (∅, Some formData))
  /\ (forall credentials,
        (LoginForm.handleSubmit formData).2 = Some credentials ->
        credentials = formData)
  /\ (~ (RegExp.test LoginForm.emailPattern (LoginForm.email formData) = true
         /\ (6 <= String.length (LoginForm.password formData))%nat) ->
      (LoginForm.handleSubmit formData).2 = None
      /\ (LoginForm.handleSubmit formData).1 <> ∅
      /\ forall server w, LoginPage_submit server formData w = w).
Proof.
  rewrite <- LoginForm_validate_empty. unfold LoginPage_submit.
  destruct (LoginForm_handleSubmit_cases formData) as [[Hm ->]|[Hm ->]];
    simpl.
  - split; [split; [done|by eexists]|]. split; [done|].
    split; [by intros ? [= <-]|]. by intros [].
  - split; [split; [by intros [? [=]]|done]|]. split; [done|].
    split; done.
Qed.

Lemma LoginForm_gate_witness :
  ~ (RegExp.test LoginForm.emailPattern "admin@test.com" = true
     /\ (6 <= String.length "12345")%nat)
  /\ (LoginForm.handleSubmit
        {| LoginForm.email := "admin@test.com";
           LoginForm.password := "12345" |}).2 = None
  /\ (LoginForm.handleSubmit
        {| LoginForm.email := "admin@test.com";
           LoginForm.password := "12345" |}).1 <> ∅
  /\ forall server w,
       LoginPage_submit server
         {| LoginForm.email := "admin@test.com"; LoginForm.password := "12345" |}
         w = w.
Proof.
  assert (Hshort : ~ (RegExp.test LoginForm.emailPattern "admin@test.com" = true
                      /\ (6 <= String.length "12345")%nat))
    by (simpl; lia).
  split; [exact Hshort|].
  apply (proj2 (proj2 (proj2 (LoginForm_gate
                                {| LoginForm.email := "admin@test.com";
                                   LoginForm.password := "12345" |}))) Hshort).
Defined.

Lemma RegisterForm_formErrors_empty formData :
  RegisterForm.formErrors formData = ∅
  <-> (2 <= String.length (trim (RegisterForm.name formData)))%nat
      /\ RegExp.matches RegisterForm.emailPattern
           (RegisterForm.email formData) = true
      /\ (6 <= String.length (RegisterForm.password formData))%nat
      /\ RegisterForm.confirmPassword formData
         = RegisterForm.password formData.
Proof.
  unfold RegisterForm.formErrors.
  destruct formData as [n e p c]. simpl.
  destruct (String.eqb_spec (trim n) "") as [Hn|Hn].
  { rewrite Hn. split; [|simpl; intros [? _]; lia].
    repeat case_match; intros Hm; by apply insert_non_empty in Hm. }
  destruct (Nat.ltb_spec (String.length (trim n)) 2) as [Hn2|Hn2].
  { split; [|intros [? _]; lia].
    repeat case_match; intros Hm; by apply insert_non_empty in Hm. }
  destruct (String.eqb_spec e "") as [->|He].
  { split; [|by intros (_ & ? & _)].
    repeat case_match; intros Hm; by apply insert_non_empty in Hm. }
  destruct (RegExp.matches RegisterForm.emailPattern e) eqn:Hmatch; simpl.
  2:{ split; [|by intros (_ & ? & _)].
      repeat case_match; intros Hm; by apply insert_non_empty in Hm. }
  destruct (String.eqb_spec p "") as [->|Hp].
  { split; [|simpl; intros (_ & _ & ? & _); lia].
    repeat case_match; intros Hm; by apply insert_non_empty in Hm. }
  destruct (Nat.ltb_spec (String.length p) 6) as [Hp6|Hp6].
  { split; [|intros (_ & _ & ? & _); lia].
    repeat case_match; intros Hm; by apply insert_non_empty in Hm. }
  destruct (String.eqb_spec c "") as [->|Hc].
  { split; [intros Hm; by apply insert_non_empty in Hm|].
    intros (_ & _ & _ & ?). congruence. }
  destruct (String.eqb_spec p c) as [->|Hpc]; simpl.
  - done.
  - split; [intros Hm; by apply insert_non_empty in Hm|].
    intros (_ & _ & _ & ?). congruence.
Qed.

Lemma RegisterForm_handleSubmit_cases formData :
  (RegisterForm.formErrors formData = ∅
   /\ RegisterForm.handleSubmit formData
      = (∅, Some {| RegisterForm.name := trim (RegisterForm.name formData);
                    RegisterForm.email := trim (RegisterForm.email formData);
                    RegisterForm.password := RegisterForm.password formData;
                    RegisterForm.confirmPassword :=
                      RegisterForm.confirmPassword formData |}))
  \/ (RegisterForm.formErrors formData <> ∅
      /\ RegisterForm.handleSubmit formData
         = (RegisterForm.formErrors formData, None)).
Proof.
  unfold RegisterForm.handleSubmit, RegisterForm.validateForm.
  destruct (decide (RegisterForm.formErrors formData = ∅)) as [Hm|Hm].
  - left. by rewrite Hm.
  - right. split; [done|].
    destruct (size (RegisterForm.formErrors formData)) eqn:Hsize; [|done].
    by apply map_size_empty_iff in Hsize.
Qed.

(** X26: what the registration form hands to [handleRegister] is the name
    trimmed and at least two characters long, the e-mail exactly as typed
    and accepted by the pattern, a password of six characters or more and
    a confirmation equal to it; it hands over anything exactly when the
    typed data meet these conditions, and otherwise sets at least one
    field error and the page asks the server nothing. *)
Theorem RegisterForm_gate (formData : RegisterForm.FormData) :
  (is_Some (RegisterForm.handleSubmit formData).2
   <-> (2 <= String.length (trim (RegisterForm.name formData)))%nat
       /\ RegExp.matches RegisterForm.emailPattern
            (RegisterForm.email formData) = true
       /\ (6 <= String.length (RegisterForm.password formData))%nat
       /\ RegisterForm.confirmPassword formData
          = RegisterForm.password formData)
  /\ (forall userData,
        (RegisterForm.handleSubmit formData).2 = Some userData ->
        RegisterForm.name userData = trim (RegisterForm.name formData)
        /\ (2 <= String.length (RegisterForm.name userData))%nat
        /\ RegisterForm.email userData = RegisterForm.email formData
        /\ RegExp.matches RegisterForm.emailPattern
             (RegisterForm.email userData) = true
        /\ RegisterForm.password userData = RegisterForm.password formData
        /\ (6 <= String.length (RegisterForm.password userData))%nat
        /\ RegisterForm.confirmPassword userData
           = RegisterForm.password userData)
  /\ ((RegisterForm.handleSubmit formData).2 = None ->
      (RegisterForm.handleSubmit formData).1 <> ∅
      /\ forall server w, RegisterPage_submit server formData w = w).
Proof.
  rewrite <- RegisterForm_formErrors_empty. unfold RegisterPage_submit.
  destruct (RegisterForm_handleSubmit_cases formData) as [[Hm ->]|[Hm ->]];
    simpl.
  - split; [split; [done|by eexists]|]. split; [|done].
    intros userData [= <-]. simpl.
    apply RegisterForm_formErrors_empty in Hm as (Hn & He & Hp & Hc).
    pose proof (registered_without_blank _ He) as Hspace.
    rewrite (trim_id _ Hspace). by repeat split.
  - split; [split; [by intros [? [=]]|done]|]. split; done.
Qed.

Lemma RegisterForm_gate_witness :
  (RegisterForm.handleSubmit
     {| RegisterForm.name := "  Ana  "; RegisterForm.email := "ana@test.com";
        RegisterForm.password := "secret1";
        RegisterForm.confirmPassword := "secret1" |}).2
  = Some {| RegisterForm.name := "Ana"; RegisterForm.email := "ana@test.com";
            RegisterForm.password := "secret1";
            RegisterForm.confirmPassword := "secret1" |}
  /\ (2 <= String.length "Ana")%nat
  /\ RegExp.matches RegisterForm.emailPattern "ana@test.com" = true.
Proof.
  assert (Hsome : (RegisterForm.handleSubmit
                     {| RegisterForm.name := "  Ana  ";
                        RegisterForm.email := "ana@test.com";
                        RegisterForm.password := "secret1";
                        RegisterForm.confirmPassword := "secret1" |}).2
                  = Some {| RegisterForm.name := "Ana";
                            RegisterForm.email := "ana@test.com";
                            RegisterForm.password := "secret1";
                            RegisterForm.confirmPassword := "secret1" |})
    by reflexivity.
  split; [exact Hsome|].
  destruct (proj1 (proj2 (RegisterForm_gate _)) _ Hsome)
    as (_ & Hname & _ & Hemail & _).
  split; [exact Hname|exact Hemail].
Defined.

(** ** The message of a failed login *)

Lemma truthy_default (m : option string) : truthy m = true -> default "" m <> "".
Proof. by destruct m as [[]|]. Qed.

(** X27: [handleLogin] leaves the error message empty exactly when the
    login succeeded; every failure, whatever its kind, leaves a message to
    show, and a message sent by the server is shown as it is. *)
Theorem handleLogin_error_shown (server : Server AuthData)
    (email password : string) (onLine : bool) (w : World) :
  (handleLogin_error server email password onLine w = ""
   <-> exists user token,
         (authAPI_login server email password w).2
         = Fulfilled (AuthSuccess user token))
  /\ (forall err message,
        (authAPI_login server email password w).2 = Rejected err ->
        response err ≫= data_message = Some message -> message <> "" ->
        handleLogin_error server email password onLine w = message).
Proof.
  unfold handleLogin_error.
  destruct (authAPI_login server email password w).2
    as [[user token|message]|err]; split.
  - split; [by eexists _, _|done].
  - done.
  - split; [|by intros (? & ? & [=])].
    destruct (truthy message) eqn:Hm.
    + intros He. by apply truthy_default in Hm.
    + intros He. vm_compute in He. discriminate.
  - done.
  - split; [|by intros (? & ? & [=])].
    destruct (truthy (response err ≫= data_message)) eqn:Hm.
    + intros He. by apply truthy_default in Hm.
    + repeat case_match; intros He; vm_compute in He; discriminate.
  - intros err' message [= <-] Hm Hne.
    by rewrite Hm, truthy_Some_ne.
Qed.

Lemma handleLogin_error_shown_witness :
  (authAPI_login (fun _ => Rejected expired) "a@b.c" "123456" signedOut).2
  = Rejected expired
  /\ response expired ≫= data_message = Some "Unauthenticated."
  /\ "Unauthenticated." <> ""
  /\ handleLogin_error (fun _ => Rejected expired) "a@b.c" "123456" true
       signedOut
     = "Unauthenticated.".
Proof.
  split; [reflexivity|]. split; [reflexivity|]. split; [discriminate|].
  apply (proj2 (handleLogin_error_shown (fun _ => Rejected expired)
                  "a@b.c" "123456" true signedOut) expired);
    [reflexivity|reflexivity|discriminate].
Defined.
